(** * PreferentialAttachment: threshold-crossing samplers, preferential
      attachment samplers, the Gini coefficient and the function line counters.

    JavaScript numbers are read as real numbers (exact arithmetic); every call
    to [Math.random()] is an explicit input: either the value of the one draw a
    function consumes, or a stream [nat -> R] whose [k]-th element is the
    result of the [k]-th call. Where the rounding of binary64 arithmetic
    decides a property, the function is given in binary64 as well (module
    [Doubles]). *)

From Stdlib Require Import String Ascii.
From Stdlib Require Import Reals Lra Lia ZArith List Bool Arith Sorted
  Permutation.
From Stdlib Require Floats Uint63.
Import ListNotations.

Local Open Scope R_scope.

(** ** Numbers *)

(** [Math.floor] and [Math.ceil]. *)
Definition Math_floor (x : R) : Z := Int_part x.
Definition Math_ceil (x : R) : Z := (- Int_part (- x))%Z.

(** [Math.pow] on a positive base. *)
Definition Math_pow (x y : R) : R := Rpower x y.

(** [Math.log]. *)
Definition Math_log (x : R) : R := ln x.

(** [arr.reduce((a, b) => a + b, 0)]: a left fold starting from 0. *)
Definition sum (l : list R) : R := fold_left Rplus l 0.

(** ** iteration_generator.js *)
Module IterationGenerator.

(** The [while (sample > Math.random())] loop of [iterations]; [k] counts the
    draws consumed so far, [None] means the fuel ran out before the exit. *)
Fixpoint iterations_loop (fuel : nat) (growthRate : R) (random : nat -> R)
    (k : nat) (sample : R) (iterations : nat) : option nat :=
  match fuel with
  | O => None
  | S fuel' =>
      if Rgt_dec sample (random k)
      then iterations_loop fuel' growthRate random (S k)
             (sample * (1 + growthRate)) (S iterations)
      else Some iterations
  end.

Definition iterations (initialSample growthRate : R) (random : nat -> R)
    (fuel : nat) : option nat :=
  iterations_loop fuel growthRate random 0 initialSample 0.

End IterationGenerator.

(** ** power_law_generator.js *)
Module PowerLaw.

(** The [while (sample <= Math.random())] loop of [generateIterations]. *)
Fixpoint generateIterations_loop (fuel : nat) (growthRate : R)
    (random : nat -> R) (k : nat) (sample : R) (iterations : nat)
    : option nat :=
  match fuel with
  | O => None
  | S fuel' =>
      if Rle_dec sample (random k)
      then generateIterations_loop fuel' growthRate random (S k)
             (sample * (1 + growthRate)) (S iterations)
      else Some iterations
  end.

Definition generateIterations (growthRate initialSample : R)
    (random : nat -> R) (fuel : nat) : option nat :=
  generateIterations_loop fuel growthRate random 0 initialSample 0.

(** The [for] loop of [preferentialAttachmentStep]: the first element whose
    cumulative weight reaches [r] is incremented in place, then [break]. *)
Fixpoint increment_loop (r cumsum : R) (weights values : list R) : list R :=
  match weights, values with
  | w :: weights', v :: values' =>
      let cumsum' := cumsum + w in
      if Rle_dec r cumsum' then (v + 1) :: values'
      else v :: increment_loop r cumsum' weights' values'
  | _, _ => values
  end.

(** [u1] and [u2] are the two draws of the step, in call order. *)
Definition preferentialAttachmentStep (values : list R)
    (alpha newElementProbability u1 u2 : R) : list R :=
  let weights := map (fun v => Math_pow v (1 / (alpha - 1))) values in
  let totalWeight := sum weights in
  let r := u1 * totalWeight in
  let values' := increment_loop r 0 weights values in
  if Rlt_dec u2 newElementProbability then values' ++ [1] else values'.

Fixpoint growth_loop (steps : nat) (alpha newElementProbability : R)
    (random : nat -> R) (k : nat) (values : list R) : list R :=
  match steps with
  | O => values
  | S steps' =>
      growth_loop steps' alpha newElementProbability random (S (S k))
        (preferentialAttachmentStep values alpha newElementProbability
           (random k) (random (S k)))
  end.

(** [Array(Math.floor(xMin))] throws a RangeError on a negative length:
    [None]. *)
Definition generatePowerLawPreferential (alpha xMin : R) (steps : nat)
    (newElementProbability : R) (random : nat -> R) : option (list R) :=
  if (Math_floor xMin <? 0)%Z then None
  else Some (growth_loop steps alpha newElementProbability random 0
               (repeat 1 (Z.to_nat (Math_floor xMin)))).

End PowerLaw.

(** ** The preferential attachment demonstration (src/unnamed/part_002) *)
Module Attachment.

(** The [for] loop of [samplePreferentialAttachment], with its fallback
    [return counts.length - 1]; [rest] is [counts] from index [j] on. *)
Fixpoint sample_loop (random cumulativeSum : R) (j : Z) (rest : list R)
    (length : Z) : Z :=
  match rest with
  | [] => (length - 1)%Z
  | c :: rest' =>
      let cumulativeSum' := cumulativeSum + c in
      if Rle_dec random cumulativeSum' then j
      else sample_loop random cumulativeSum' (j + 1) rest' length
  end.

(** [u] is the result of the one [Math.random()] call of either branch. *)
Definition samplePreferentialAttachment (counts : list R) (u : R) : Z :=
  let totalSum := sum counts in
  if Req_dec_T totalSum 0
  then Math_floor (u * INR (length counts))
  else
    let random := u * totalSum in
    sample_loop random 0 0 counts (Z.of_nat (length counts)).

(** [counts[i]++] at an index inside the array. *)
Fixpoint increment_at (counts : list R) (i : nat) : option (list R) :=
  match counts, i with
  | [], _ => None
  | c :: rest, O => Some (c + 1 :: rest)
  | c :: rest, S i' => option_map (cons c) (increment_at rest i')
  end.

(** [counts[selectedIndex]++]. Outside the array the update would store NaN
    (under a negative key, or past the end), which is no real number:
    [None]. *)
Definition increment (counts : list R) (selectedIndex : Z)
    : option (list R) :=
  if (selectedIndex <? 0)%Z then None
  else increment_at counts (Z.to_nat selectedIndex).

(** The sampling loop of [preferentialAttachment]; round [i] consumes the
    draw [random i]. Logging and [displaySortedHistogram] only read
    [counts]. *)
Fixpoint preferentialAttachment_loop (iterations : nat) (random : nat -> R)
    (i : nat) (counts : list R) : option (list R) :=
  match iterations with
  | O => Some counts
  | S iterations' =>
      let selectedIndex := samplePreferentialAttachment counts (random i) in
      match increment counts selectedIndex with
      | None => None
      | Some counts' =>
          preferentialAttachment_loop iterations' random (S i) counts'
      end
  end.

Definition preferentialAttachment (arraySize iterations : nat)
    (random : nat -> R) : option (list R) :=
  preferentialAttachment_loop iterations random 0 (repeat 0 arraySize).

(** The [for] loop of [samplePreferentialAttachmentWithWeights]. *)
Fixpoint weighted_loop (random cumulativeProbability totalWeight : R) (j : Z)
    (rest : list R) (length : Z) : Z :=
  match rest with
  | [] => (length - 1)%Z
  | c :: rest' =>
      let cumulativeProbability' := cumulativeProbability + c / totalWeight in
      if Rle_dec random cumulativeProbability' then j
      else weighted_loop random cumulativeProbability' totalWeight (j + 1)
             rest' length
  end.

Definition samplePreferentialAttachmentWithWeights (counts : list R) (u : R)
    : Z :=
  let totalWeight := sum counts in
  let random := u in
  weighted_loop random 0 totalWeight 0 counts (Z.of_nat (length counts)).

(** [[...values].sort((a, b) => a - b)]: ascending, stable. *)
Fixpoint insert_ascending (x : R) (l : list R) : list R :=
  match l with
  | [] => [x]
  | y :: l' => if Rle_dec x y then x :: l else y :: insert_ascending x l'
  end.

Definition sort_ascending (l : list R) : list R :=
  fold_right insert_ascending [] l.

(** The [for] loop of [calculateGini]. *)
Fixpoint gini_loop (n : R) (i : nat) (rest : list R) (numerator : R) : R :=
  match rest with
  | [] => numerator
  | v :: rest' =>
      gini_loop n (S i) rest' (numerator + (2 * (INR i + 1) - n - 1) * v)
  end.

Definition calculateGini (values : list R) : R :=
  let n := INR (length values) in
  let sortedValues := sort_ascending values in
  let sum := sum sortedValues in
  if Req_dec_T sum 0 then 0
  else
    let numerator := gini_loop n 0 sortedValues 0 in
    numerator / (n * sum).



End Attachment.

(** ** [calculateGini] in binary64 arithmetic (src/unnamed/part_002) *)
Module Doubles.

Import Stdlib.Floats.Floats.


(** [arr.reduce((acc, val) => acc + val, 0)]. *)
Definition sum (l : list float) : float := fold_left PrimFloat.add l 0%float.

(** [values.length] as a number. *)
Definition length_of (l : list float) : float :=
  PrimFloat.of_uint63 (Uint63.of_Z (Z.of_nat (length l))).

(** [[...values].sort((a, b) => a - b)]: [a] goes after [b] when [a - b] is
    positive. *)
Fixpoint insert_ascending (x : float) (l : list float) : list float :=
  match l with
  | [] => [x]
  | y :: l' =>
      if PrimFloat.ltb 0%float (PrimFloat.sub x y)
      then y :: insert_ascending x l'
      else x :: l
  end.

Definition sort_ascending (l : list float) : list float :=
  fold_right insert_ascending [] l.

(** The [for] loop of [calculateGini]:
    [numerator += (2 * (i + 1) - n - 1) * sortedValues[i]]. *)
Fixpoint gini_loop (n i : float) (rest : list float) (numerator : float)
    : float :=
  match rest with
  | [] => numerator
  | v :: rest' =>
      gini_loop n (PrimFloat.add i 1%float) rest'
        (PrimFloat.add numerator
           (PrimFloat.mul
              (PrimFloat.sub
                 (PrimFloat.sub
                    (PrimFloat.mul 2%float (PrimFloat.add i 1%float)) n)
                 1%float)
              v))
  end.

Definition calculateGini (values : list float) : float :=
  let n := length_of values in
  let sortedValues := sort_ascending values in
  let sum := sum sortedValues in
  if PrimFloat.eqb sum 0%float then 0%float
  else
    let numerator := gini_loop n 0%float sortedValues 0%float in
    PrimFloat.div numerator (PrimFloat.mul n sum).

End Doubles.

(** ** The brace-matching counter (src/unnamed/part_001) *)
Module BraceScanner.

Local Open Scope Z_scope.

(** White space removed by [trim()], for ASCII text. *)
Definition is_space (c : ascii) : bool :=
  (c =? " ")%char || (c =? "009")%char || (c =? "010")%char
  || (c =? "011")%char || (c =? "012")%char || (c =? "013")%char.

Fixpoint trim_start (s : string) : string :=
  match s with
  | EmptyString => EmptyString
  | String c s' => if is_space c then trim_start s' else s
  end.

Fixpoint trim_end (s : string) : string :=
  match s with
  | EmptyString => EmptyString
  | String c s' =>
      match trim_end s' with
      | EmptyString => if is_space c then EmptyString else String c EmptyString
      | t => String c t
      end
  end.

Definition trim (s : string) : string := trim_end (trim_start s).

(** [content.split('\n')]. *)
Fixpoint split_lines (s : string) : list string :=
  match s with
  | EmptyString => [EmptyString]
  | String c s' =>
      if (c =? "010")%char then EmptyString :: split_lines s'
      else
        match split_lines s' with
        | [] => [String c EmptyString]
        | l :: ls => String c l :: ls
        end
  end.

(** [(line.match(/c/g) || []).length]. *)
Fixpoint count_char (c : ascii) (s : string) : Z :=
  match s with
  | EmptyString => 0
  | String d s' => (if (d =? c)%char then 1 else 0) + count_char c s'
  end.

(** [line.includes(c)] for a one-character string. *)
Fixpoint includes (c : ascii) (s : string) : bool :=
  match s with
  | EmptyString => false
  | String d s' => (d =? c)%char || includes c s'
  end.

Definition startsWith (p s : string) : bool := String.prefix p s.

Definition is_empty (s : string) : bool :=
  match s with EmptyString => true | _ => false end.

(** The local variables of [countFunctionLines]. *)
Record state : Type := mkState {
  inFunction : bool;
  functionStartLine : Z;
  braceCount : Z;
  parenCount : Z;
  lineCounts : list Z
}.

Definition initial : state := mkState false 0 0 0 [].

(** The test of the [continue] at the top of the loop body. *)
Definition skipped (line : string) : bool :=
  is_empty line || startsWith "//" line || startsWith "/*" line
  || startsWith "*" line.

(** One round of the [for] loop, on the line of index [i]. *)
Definition scan_line (lines : list string) (i : nat) (st : state) : state :=
  let line := trim (nth i lines EmptyString) in
  if skipped line then st
  else
    let openParens := count_char "(" line in
    let closeParens := count_char ")" line in
    let openBraces := count_char "{" line in
    let closeBraces := count_char "}" line in
    let parenCount' := parenCount st + (openParens - closeParens) in
    let st1 :=
      if negb (inFunction st) && (0 <? openParens) && (parenCount' =? 0)
         && (0 <? openBraces)
      then mkState true (Z.of_nat i) (openBraces - closeBraces) parenCount'
             (lineCounts st)
      else if negb (inFunction st) && (0 <? openParens) && (parenCount' =? 0)
              && includes ")" line && negb (includes ";" line)
      then
        let nextLineIndex := (i + 1)%nat in
        if (nextLineIndex <? length lines)%nat
           && startsWith "{" (trim (nth nextLineIndex lines EmptyString))
        then mkState true (Z.of_nat i) 0 parenCount' (lineCounts st)
        else mkState (inFunction st) (functionStartLine st) (braceCount st)
               parenCount' (lineCounts st)
      else mkState (inFunction st) (functionStartLine st) (braceCount st)
             parenCount' (lineCounts st) in
    if inFunction st1 then
      let braceCount' := braceCount st1 + (openBraces - closeBraces) in
      if (braceCount' =? 0) && ((0 <? openBraces) || (0 <? closeBraces))
      then
        let lineCount := Z.of_nat i - functionStartLine st1 + 1 in
        mkState false (functionStartLine st1) braceCount' 0
          (if 1 <? lineCount then lineCounts st1 ++ [lineCount]
           else lineCounts st1)
      else mkState true (functionStartLine st1) braceCount' (parenCount st1)
             (lineCounts st1)
    else st1.

(** The rounds [i], [i + 1], ... of the loop, [rounds] of them. *)
Fixpoint scan (lines : list string) (rounds : nat) (i : nat) (st : state)
    : state :=
  match rounds with
  | O => st
  | S rounds' => scan lines rounds' (S i) (scan_line lines i st)
  end.

(** [content] is the text that [fs.readFileSync] returned. *)
Definition countFunctionLines (content : string) : list Z :=
  let lines := split_lines content in
  lineCounts (scan lines (length lines) 0 initial).

End BraceScanner.

(** ** treesitter_cpp_counter.js *)
Module TreeSitter.

Local Open Scope Z_scope.

Record point : Type := mkPoint { row : Z; column : Z }.

(** A syntax node as the parser hands it over. *)
#[warnings="-register-all"]
Inductive node : Type :=
  Node (type : string) (startPosition endPosition : point)
       (children : list node).

Definition type (n : node) : string :=
  match n with Node t _ _ _ => t end.
Definition startPosition (n : node) : point :=
  match n with Node _ s _ _ => s end.
Definition endPosition (n : node) : point :=
  match n with Node _ _ e _ => e end.
Definition children (n : node) : list node :=
  match n with Node _ _ _ c => c end.

(** The test of the [if] in [traverseNode]. *)
Definition is_function (t : string) : bool :=
  (t =? "function_definition")%string || (t =? "function_declarator")%string
  || (t =? "method_definition")%string.

(** [traverseNode], with the array [lineCounts] it pushes to threaded
    through. *)
Fixpoint traverseNode (n : node) (lineCounts : list Z) : list Z :=
  match n with
  | Node t startPos endPos children =>
      let lineCounts1 :=
        if is_function t then
          let startLine := row startPos in
          let endLine := row endPos in
          let lineCount := endLine - startLine + 1 in
          if 1 <? lineCount then lineCounts ++ [lineCount] else lineCounts
        else lineCounts in
      fold_left (fun acc child => traverseNode child acc) children lineCounts1
  end.

(** [rootNode] is the root of the tree that [parser.parse(content)]
    returned. *)
Definition countFunctionLines (rootNode : node) : list Z :=
  traverseNode rootNode [].

End TreeSitter.

(** ** The histogram of iteration counts (src/unnamed/part_001,
       [printHistogram]) *)
Module IterationHistogram.

(** A [Map] from iteration counts to frequencies: its entries in insertion
    order. *)
Definition freq_map : Type := list (nat * nat).

(** [frequencyMap.get(iter)]: [None] is [undefined]. *)
Fixpoint map_get (m : freq_map) (iter : nat) : option nat :=
  match m with
  | [] => None
  | (k, v) :: m' => if (k =? iter)%nat then Some v else map_get m' iter
  end.

(** [frequencyMap.set(iter, v)]: an existing key keeps its place, a new key
    goes last. *)
Fixpoint map_set (m : freq_map) (iter v : nat) : freq_map :=
  match m with
  | [] => [(iter, v)]
  | (k, w) :: m' =>
      if (k =? iter)%nat then (k, v) :: m' else (k, w) :: map_set m' iter v
  end.

(** [frequencyMap.get(iter) || 0]. *)
Definition get_or_zero (m : freq_map) (iter : nat) : nat :=
  match map_get m iter with
  | Some v => v
  | None => 0%nat
  end.

(** The [forEach] of [printHistogram]: the frequency map and the running
    [sum]. *)
Definition tally (results : list nat) : freq_map * R :=
  fold_left
    (fun (acc : freq_map * R) (iter : nat) =>
       let (frequencyMap, sum) := acc in
       (map_set frequencyMap iter (get_or_zero frequencyMap iter + 1),
        sum + INR iter))
    results ([], 0).

(** [entries.sort((a, b) => a[0] - b[0])]: ascending by key, stable. *)
Fixpoint insert_by_key (p : nat * nat) (l : list (nat * nat))
    : list (nat * nat) :=
  match l with
  | [] => [p]
  | q :: l' =>
      if (fst p <=? fst q)%nat then p :: l else q :: insert_by_key p l'
  end.

Definition sort_by_key (l : list (nat * nat)) : list (nat * nat) :=
  fold_right insert_by_key [] l.

(** The length of the bar of a row:
    [Math.max(1, Math.floor(count / Math.max(1, results.length / 50)))]. *)
Definition bar_length (count length : nat) : Z :=
  Z.max 1 (Math_floor (INR count / Rmax 1 (INR length / 50))).

(** The numbers [printHistogram] prints: the average, then one row per
    iteration count in ascending order, with its frequency and the length of
    its bar. The percentage column and the formatting of the text
    ([toFixed]) are left out. *)
Definition printHistogram (results : list nat) : R * list (nat * nat * Z) :=
  let (frequencyMap, sum) := tally results in
  let avg := sum / INR (length results) in
  let sortedFreqs := sort_by_key frequencyMap in
  (avg,
   map (fun row : nat * nat =>
          let (iterations, count) := row in
          (iterations, count, bar_length count (length results)))
       sortedFreqs).

End IterationHistogram.

(** ** Vocabulary of the statements *)

(** The cumulative sum of the first [k] entries of an array. *)
Definition cumulative (l : list R) (k : nat) : R := sum (firstn k l).

(** [j] is the least index whose cumulative sum reaches the draw [r]. *)
Definition least_crossing (l : list R) (r : R) (j : nat) : Prop :=
  r <= cumulative l (j + 1)
  /\ forall i, (i < j)%nat -> cumulative l (i + 1) < r.

(** The two readings of "[r] falls in the half-open cumulative interval of
    entry [j]". *)
Definition in_closed_open (l : list R) (j : nat) (r : R) : Prop :=
  cumulative l j <= r < cumulative l (j + 1).

Definition in_open_closed (l : list R) (j : nat) (r : R) : Prop :=
  cumulative l j < r <= cumulative l (j + 1).

(** The set [P] of draws is an interval of length [m], up to its two end
    points: [m] is its measure. *)
Definition has_measure (P : R -> Prop) (m : R) : Prop :=
  exists lo hi,
    lo <= hi /\ hi - lo = m
    /\ (forall x, lo < x < hi -> P x)
    /\ (forall x, P x -> lo <= x <= hi).

(** The nodes of a syntax tree in the order [traverseNode] visits them. *)
Fixpoint preorder (n : TreeSitter.node) : list TreeSitter.node :=
  match n with
  | TreeSitter.Node _ _ _ children => n :: flat_map preorder children
  end.

(** The inclusive number of lines a node spans. *)
Definition node_lines (n : TreeSitter.node) : Z :=
  (TreeSitter.row (TreeSitter.endPosition n)
   - TreeSitter.row (TreeSitter.startPosition n) + 1)%Z.

(** A function node spanning more than one line. *)
Definition multi_line_function (n : TreeSitter.node) : bool :=
  TreeSitter.is_function (TreeSitter.type n) && (1 <? node_lines n)%Z.

(** The loop of the brace scanner processes line [i] (no [continue]). *)
Definition processed (lines : list string) (i : nat) : Prop :=
  BraceScanner.skipped (BraceScanner.trim (nth i lines EmptyString)) = false.

(** Line [s] looks like the start of a function: it is processed, opens a
    parenthesis, and either opens a brace or closes a parenthesis, has no
    semicolon and is followed by a line that starts with a brace. *)
Definition start_line (lines : list string) (s : nat) : Prop :=
  let line := BraceScanner.trim (nth s lines EmptyString) in
  processed lines s
  /\ (0 < BraceScanner.count_char "(" line)%Z
  /\ ((0 < BraceScanner.count_char "{" line)%Z
      \/ (BraceScanner.includes ")" line = true
          /\ BraceScanner.includes ";" line = false
          /\ (s + 1 < length lines)%nat
          /\ BraceScanner.startsWith "{"
               (BraceScanner.trim (nth (s + 1) lines EmptyString)) = true)).

(** Line [i] is processed and contains a brace. *)
Definition brace_line (lines : list string) (i : nat) : Prop :=
  let line := BraceScanner.trim (nth i lines EmptyString) in
  processed lines i
  /\ ((0 < BraceScanner.count_char "{" line)%Z
      \/ (0 < BraceScanner.count_char "}" line)%Z).

(** [c] is the inclusive number of lines from a start line to a later line
    with a brace, and is more than 1. *)
Definition line_span (lines : list string) (c : Z) : Prop :=
  (1 < c)%Z
  /\ exists s i,
       (s < i < length lines)%nat
       /\ start_line lines s /\ brace_line lines i
       /\ c = (Z.of_nat i - Z.of_nat s + 1)%Z.

(** What holds of the scanner state before the round of line [i]: inside a
    function the start line is an earlier start line, and every count
    recorded so far is a line span. *)
Definition scan_inv (lines : list string) (i : nat) (st : BraceScanner.state)
    : Prop :=
  (BraceScanner.inFunction st = true ->
   exists s, (s < i)%nat
             /\ BraceScanner.functionStartLine st = Z.of_nat s
             /\ start_line lines s)
  /\ Forall (line_span lines) (BraceScanner.lineCounts st).

(** The state of the brace scanner before the round of line [k]. *)
Definition scan_state (lines : list string) (k : nat) : BraceScanner.state :=
  BraceScanner.scan lines k 0 BraceScanner.initial.

(** The round of line [i] records the function detected on line [s]: the
    scanner was outside a function before line [s], which is a start line;
    from the next round up to the round of line [i] it is inside the function
    with [functionStartLine = s]; the round of line [i], a line with a brace,
    brings the counter to 0, leaves the function and appends
    [i - s + 1]. *)
Definition records (lines : list string) (s i : nat) : Prop :=
  (s < i)%nat
  /\ BraceScanner.inFunction (scan_state lines s) = false
  /\ start_line lines s
  /\ (forall k, (s < k <= i)%nat ->
        BraceScanner.inFunction (scan_state lines k) = true
        /\ BraceScanner.functionStartLine (scan_state lines k) = Z.of_nat s)
  /\ brace_line lines i
  /\ BraceScanner.inFunction (scan_state lines (S i)) = false
  /\ BraceScanner.braceCount (scan_state lines (S i)) = 0%Z
  /\ BraceScanner.lineCounts (scan_state lines (S i))
     = BraceScanner.lineCounts (scan_state lines i)
       ++ [(Z.of_nat i - Z.of_nat s + 1)%Z].

(** The total of the recorded line counts. *)
Definition total_lines (counts : list Z) : Z := fold_left Z.add counts 0%Z.

(** What bounds the recorded counts before the round of line [i]: their
    total is at most the index of the current start line inside a function,
    and at most [i] outside. *)
Definition scan_budget (i : nat) (st : BraceScanner.state) : Prop :=
  if BraceScanner.inFunction st
  then (total_lines (BraceScanner.lineCounts st)
        <= BraceScanner.functionStartLine st < Z.of_nat i)%Z
  else (total_lines (BraceScanner.lineCounts st) <= Z.of_nat i)%Z.

(** Braces opened minus braces closed on a line, 0 on a skipped line. *)
Definition net_braces (line : string) : Z :=
  let line := BraceScanner.trim line in
  if BraceScanner.skipped line then 0%Z
  else (BraceScanner.count_char "{" line
        - BraceScanner.count_char "}" line)%Z.

(** The brace depth after the lines of index [s] to [i]. *)
Definition brace_depth (lines : list string) (s i : nat) : Z :=
  fold_left Z.add (map net_braces (firstn (i + 1 - s) (skipn s lines))) 0%Z.

Definition newline : string := String "010"%char EmptyString.

(** The numerator of the Gini coefficient as a weighted sum: the entry of
    index [k] has coefficient [c + 2 * k]. *)
Fixpoint weighted_sum (c : R) (l : list R) : R :=
  match l with
  | [] => 0
  | v :: l' => c * v + weighted_sum (c + 2) l'
  end.

(** The array of [n] counts that holds [k] at index [j] and 0 elsewhere. *)
Definition single_count (n j : nat) (k : R) : list R :=
  repeat 0 j ++ k :: repeat 0 (n - j - 1).

(** Going from [values] to [values'] added 1 to the entry of index [i]. *)
Definition increments (values values' : list R) (i : nat) : Prop :=
  exists v, nth_error values i = Some v /\ nth_error values' i = Some (v + 1).

(* ================================================================== *)
(** * Properties *)

(** Decide a comparison of two closed real expressions inside the goal. *)
Ltac decide_R :=
  match goal with
  | |- context [Rle_dec ?a ?b] => destruct (Rle_dec a b); [ try lra | try lra ]
  | |- context [Rgt_dec ?a ?b] => destruct (Rgt_dec a b); [ try lra | try lra ]
  | |- context [Rlt_dec ?a ?b] => destruct (Rlt_dec a b); [ try lra | try lra ]
  | |- context [Req_dec_T ?a ?b] =>
      destruct (Req_dec_T a b); [ try lra | try lra ]
  end.

Section ThresholdCrossing.

Import IterationGenerator PowerLaw.

(** More fuel never changes a result already produced. *)
Lemma generateIterations_loop_fuel fuel fuel' g random k s n r :
  generateIterations_loop fuel g random k s n = Some r ->
  (fuel <= fuel')%nat ->
  generateIterations_loop fuel' g random k s n = Some r.
Proof.
  revert fuel' k s n.
  induction fuel as [|fuel IH]; intros fuel' k s n H Hle; [discriminate|].
  destruct fuel' as [|fuel']; [lia|].
  simpl in *. destruct (Rle_dec s (random k)); [|exact H].
  apply IH; [exact H | lia].
Qed.

Lemma iterations_loop_fuel fuel fuel' g random k s n r :
  iterations_loop fuel g random k s n = Some r ->
  (fuel <= fuel')%nat ->
  iterations_loop fuel' g random k s n = Some r.
Proof.
  revert fuel' k s n.
  induction fuel as [|fuel IH]; intros fuel' k s n H Hle; [discriminate|].
  destruct fuel' as [|fuel']; [lia|].
  simpl in *. destruct (Rgt_dec s (random k)); [|exact H].
  apply IH; [exact H | lia].
Qed.

(** The loop of [generateIterations] exits as soon as the sample has grown
    past the draw of the current round. *)
Lemma generateIterations_loop_exit g random :
  0 < g ->
  forall j fuel k s n,
    (j < fuel)%nat ->
    0 < s ->
    random (k + j)%nat < s * (1 + g) ^ j ->
    exists r, generateIterations_loop fuel g random k s n = Some r
              /\ (n <= r <= n + j)%nat.
Proof.
  intros Hg. induction j as [|j IH]; intros fuel k s n Hf Hs Hr.
  - destruct fuel as [|fuel]; [lia|]. simpl.
    rewrite Nat.add_0_r in Hr. simpl in Hr.
    destruct (Rle_dec s (random k)); [lra|].
    exists n. split; [reflexivity | lia].
  - destruct fuel as [|fuel]; [lia|]. simpl.
    destruct (Rle_dec s (random k)).
    + destruct (IH fuel (S k) (s * (1 + g)) (S n)) as [r' [Hr' Hb]].
      * lia.
      * apply Rmult_lt_0_compat; lra.
      * replace (S k + j)%nat with (k + S j)%nat by lia.
        simpl in Hr. rewrite Rmult_assoc. exact Hr.
      * exists r'. split; [exact Hr' | lia].
    + exists n. split; [reflexivity | lia].
Qed.

(** [x <= Math.ceil x]. *)
Lemma Math_ceil_ge x : x <= IZR (Math_ceil x).
Proof.
  unfold Math_ceil. rewrite opp_IZR.
  destruct (base_Int_part (- x)) as [H1 H2]. lra.
Qed.

Lemma Math_ceil_lt x : IZR (Math_ceil x) < x + 1.
Proof.
  unfold Math_ceil. rewrite opp_IZR.
  destruct (base_Int_part (- x)) as [H1 H2]. lra.
Qed.

(** The geometric growth passes 1 after [ceil(log(1/s)/log(1+g))] rounds. *)
Lemma growth_reaches_one g s :
  0 < g -> 0 < s < 1 ->
  let N := Z.to_nat (Math_ceil (Math_log (1 / s) / Math_log (1 + g))) in
  1 <= s * (1 + g) ^ N.
Proof.
  intros Hg Hs N.
  assert (Hlg : 0 < ln (1 + g)).
  { rewrite <- ln_1. apply ln_increasing; lra. }
  assert (Hls : 0 < ln (1 / s)).
  { rewrite <- ln_1. apply ln_increasing; [lra|].
    unfold Rdiv. rewrite Rmult_1_l. rewrite <- Rinv_1 at 1.
    apply Rinv_lt_contravar; lra. }
  set (L := Math_log (1 / s) / Math_log (1 + g)) in *.
  assert (HL : 0 < L).
  { unfold L, Math_log. apply Rdiv_lt_0_compat; assumption. }
  assert (HN : L <= INR N).
  { unfold N. rewrite INR_IZR_INZ. rewrite Z2Nat.id.
    - apply Math_ceil_ge.
    - apply le_IZR. pose proof (Math_ceil_ge L). lra. }
  assert (Hpow : 1 / s <= (1 + g) ^ N).
  { rewrite <- (exp_ln (1 / s)) by (apply Rdiv_lt_0_compat; lra).
    rewrite <- (exp_ln ((1 + g) ^ N)) by (apply pow_lt; lra).
    rewrite ln_pow by lra.
    assert (ln (1 / s) <= INR N * ln (1 + g)).
    { replace (ln (1 / s)) with (L * ln (1 + g)).
      - apply Rmult_le_compat_r; lra.
      - unfold L, Math_log. field. lra. }
    destruct H as [H|H].
    - left. apply exp_increasing. exact H.
    - rewrite H. right. reflexivity. }
  replace 1 with (s * (1 / s)) at 1 by (field; lra).
  apply Rmult_le_compat_l; lra.
Qed.

(** In exact arithmetic [generateIterations] always returns, after at most
    [ceil(log(1/initialSample)/log(1+growthRate))] rounds of its loop. *)
Lemma generateIterations_terminates g s random :
  0 < g -> 0 < s < 1 ->
  (forall k, 0 <= random k < 1) ->
  let N := Z.to_nat (Math_ceil (Math_log (1 / s) / Math_log (1 + g))) in
  exists r, generateIterations g s random (S N) = Some r /\ (r <= N)%nat.
Proof.
  intros Hg Hs Hrand N.
  destruct (generateIterations_loop_exit g random Hg N (S N) 0%nat s 0%nat)
    as [r [Hr Hb]].
  - lia.
  - lra.
  - pose proof (growth_reaches_one g s Hg Hs) as H. simpl in H. fold N in H.
    specialize (Hrand (0 + N)%nat). lra.
  - exists r. split; [exact Hr | lia].
Qed.

(** Once every draw stays below the initial sample the loop of [iterations]
    never exits. *)
Lemma iterations_loop_diverges g random :
  0 < g ->
  forall fuel k s n,
    0 < s ->
    (forall j, random j < s) ->
    iterations_loop fuel g random k s n = None.
Proof.
  intros Hg. induction fuel as [|fuel IH]; intros k s n Hs Hlt.
  - reflexivity.
  - simpl. destruct (Rgt_dec s (random k)) as [_|Hn].
    + apply IH.
      * apply Rmult_lt_0_compat; lra.
      * intros j. specialize (Hlt j).
        assert (s <= s * (1 + g)) by nra. lra.
    + exfalso. apply Hn. apply Hlt.
Qed.

End ThresholdCrossing.

Section ThresholdCrossingCases.

Import IterationGenerator PowerLaw.

(** C3: with growth rate 0.1, initial sample 0.5 and every draw equal to 0.7,
    [iterations] returns 0 (its loop runs while the sample exceeds the draw)
    whereas [generateIterations] returns 4 (its loop runs until the sample
    exceeds the draw). *)
Theorem threshold_samplers_disagree :
  let random := fun _ : nat => 7 / 10 in
  iterations (1 / 2) (1 / 10) random 1 = Some 0%nat /\
  generateIterations (1 / 10) (1 / 2) random 5 = Some 4%nat.
Proof.
  split.
  - unfold iterations. simpl. decide_R. reflexivity.
  - unfold generateIterations. simpl. repeat decide_R. reflexivity.
Qed.

(** C4: with growth rate 0.1, initial sample 0.5 and every draw equal to 0.25
    the loop of [iterations] never exits, whatever the number of rounds it is
    given. *)
Theorem iterations_never_exits :
  forall fuel, iterations (1 / 2) (1 / 10) (fun _ => 1 / 4) fuel = None.
Proof.
  intros fuel. unfold iterations.
  apply iterations_loop_diverges; [lra | lra | intros _; lra].
Qed.

End ThresholdCrossingCases.

(** ** Sums and counts *)
Section Sums.

Lemma fold_left_Rplus_acc (l : list R) (a : R) :
  fold_left Rplus l a = a + fold_left Rplus l 0.
Proof.
  revert a. induction l as [|x l IH]; intros a; simpl.
  - lra.
  - rewrite (IH (a + x)), (IH (0 + x)). lra.
Qed.

Lemma sum_nil : sum [] = 0.
Proof. reflexivity. Qed.

Lemma sum_cons (x : R) (l : list R) : sum (x :: l) = x + sum l.
Proof.
  unfold sum. simpl. rewrite fold_left_Rplus_acc. lra.
Qed.

Lemma sum_app (l1 l2 : list R) : sum (l1 ++ l2) = sum l1 + sum l2.
Proof.
  induction l1 as [|x l1 IH]; simpl.
  - rewrite sum_nil. lra.
  - rewrite !sum_cons, IH. lra.
Qed.

Lemma sum_nonneg (l : list R) :
  (forall c, In c l -> 0 <= c) -> 0 <= sum l.
Proof.
  induction l as [|x l IH]; intros H.
  - rewrite sum_nil. lra.
  - rewrite sum_cons.
    assert (0 <= x) by (apply H; left; reflexivity).
    assert (0 <= sum l) by (apply IH; intros c Hc; apply H; right; exact Hc).
    lra.
Qed.

Lemma sum_repeat (x : R) (n : nat) : sum (repeat x n) = INR n * x.
Proof.
  induction n as [|n IH].
  - simpl. rewrite sum_nil. lra.
  - cbn [repeat]. rewrite sum_cons, IH, S_INR. lra.
Qed.

(** [0 <= Math.floor x < n] whenever [0 <= x < n]. *)
Lemma Math_floor_range (x : R) (n : Z) :
  0 <= x < IZR n -> (0 <= Math_floor x < n)%Z.
Proof.
  intros [H0 Hn]. unfold Math_floor.
  destruct (base_Int_part x) as [H1 H2]. split.
  - apply Z.lt_succ_r. apply lt_IZR. rewrite succ_IZR.
    change (IZR 0) with 0. lra.
  - apply lt_IZR. lra.
Qed.

End Sums.

(** ** The samplers of the demonstration *)
Section Samplers.

Import Attachment.

(** The loop answers an index it has visited, or the fallback. *)
Lemma sample_loop_range random acc j rest len :
  (j + Z.of_nat (length rest) = len)%Z -> (0 <= j)%Z -> (1 <= len)%Z ->
  (0 <= sample_loop random acc j rest len < len)%Z.
Proof.
  revert acc j. induction rest as [|c rest IH]; intros acc j Hlen Hj Hl.
  - simpl. lia.
  - simpl. simpl length in Hlen. destruct (Rle_dec random (acc + c)).
    + lia.
    + apply IH; lia.
Qed.

(** The sampler answers an index of the array in both of its branches. *)
Lemma sample_index_range counts u :
  counts <> [] ->
  0 <= u < 1 ->
  (0 <= samplePreferentialAttachment counts u < Z.of_nat (length counts))%Z.
Proof.
  intros Hne Hu.
  assert (Hlen : (1 <= Z.of_nat (length counts))%Z).
  { destruct counts; [congruence | simpl length; lia]. }
  unfold samplePreferentialAttachment.
  destruct (Req_dec_T (sum counts) 0) as [Hz|Hnz].
  - apply Math_floor_range. rewrite INR_IZR_INZ.
    assert (1 <= IZR (Z.of_nat (length counts))) by (apply IZR_le; exact Hlen).
    nra.
  - apply sample_loop_range; lia.
Qed.

(** C10: on a non-empty array of non-negative numbers and a draw in [0,1),
    [samplePreferentialAttachment] answers an index of the array, in the
    all-zero branch as well as in the cumulative loop and its fallback. *)
Theorem samplePreferentialAttachment_in_range counts u :
  counts <> [] ->
  (forall c, In c counts -> 0 <= c) ->
  0 <= u < 1 ->
  (0 <= samplePreferentialAttachment counts u < Z.of_nat (length counts))%Z.
Proof.
  intros Hne _ Hu. apply sample_index_range; assumption.
Qed.

Lemma samplePreferentialAttachment_in_range_witness :
  (0 <= samplePreferentialAttachment [0; 0; 0]%R (1 / 2)%R < 3)%Z.
Proof.
  apply (samplePreferentialAttachment_in_range [0; 0; 0] (1 / 2)).
  - discriminate.
  - intros c Hc. simpl in Hc. lra.
  - lra.
Defined.

(** The cumulative loop on the scaled draw and the loop on normalised
    weights take the same exits. *)
Lemma loops_agree u S :
  0 < S ->
  forall rest acc j len,
    sample_loop (u * S) acc j rest len =
    weighted_loop u (acc / S) S j rest len.
Proof.
  intros HS. induction rest as [|c rest IH]; intros acc j len.
  - reflexivity.
  - simpl.
    assert (Heq : acc / S + c / S = (acc + c) / S) by (field; lra).
    rewrite Heq.
    assert (Hq : (acc + c) / S * S = acc + c) by (field; lra).
    destruct (Rle_dec (u * S) (acc + c)) as [H1|H1];
      destruct (Rle_dec u ((acc + c) / S)) as [H2|H2].
    + reflexivity.
    + exfalso. apply H2.
      apply (Rmult_le_reg_r S); [exact HS | rewrite Hq; exact H1].
    + exfalso. apply H1. rewrite <- Hq.
      apply Rmult_le_compat_r; lra.
    + apply IH.
Qed.

(** C6: for counts of positive sum the sampler on the scaled draw and the
    sampler with normalised weights return the same index on the same draw. *)
Theorem samplers_agree counts u :
  (forall c, In c counts -> 0 <= c) ->
  0 < sum counts ->
  0 <= u < 1 ->
  samplePreferentialAttachment counts u =
  samplePreferentialAttachmentWithWeights counts u.
Proof.
  intros _ HS _.
  unfold samplePreferentialAttachment, samplePreferentialAttachmentWithWeights.
  destruct (Req_dec_T (sum counts) 0) as [Hz|_]; [lra|].
  rewrite (loops_agree u (sum counts) HS).
  replace (0 / sum counts) with 0 by (field; lra). reflexivity.
Qed.

Lemma samplers_agree_witness :
  samplePreferentialAttachment [1; 3] (1 / 2) =
  samplePreferentialAttachmentWithWeights [1; 3] (1 / 2).
Proof.
  apply (samplers_agree [1; 3] (1 / 2)).
  - intros c Hc. simpl in Hc. lra.
  - unfold sum. simpl. lra.
  - lra.
Defined.

(** An in-range increment keeps the length, adds 1 to the sum and keeps
    every entry a natural number. *)
Lemma increment_at_spec counts i :
  (i < length counts)%nat ->
  Forall (fun c => exists n : nat, c = INR n) counts ->
  exists counts',
    increment_at counts i = Some counts'
    /\ length counts' = length counts
    /\ sum counts' = sum counts + 1
    /\ Forall (fun c => exists n : nat, c = INR n) counts'.
Proof.
  revert i. induction counts as [|c rest IH]; intros i Hi Hall.
  - simpl in Hi. lia.
  - inversion Hall as [|c' rest' Hc Hrest]; subst.
    destruct i as [|i].
    + exists (c + 1 :: rest). simpl. repeat split.
      * rewrite !sum_cons. lra.
      * constructor; [|exact Hrest].
        destruct Hc as [n Hn]. exists (S n). rewrite S_INR, Hn. reflexivity.
    + simpl in Hi. destruct (IH i) as [rest2 [H1 [H2 [H3 H4]]]];
        [lia | exact Hrest |].
      exists (c :: rest2). simpl. rewrite H1. simpl. repeat split.
      * congruence.
      * rewrite !sum_cons, H3. lra.
      * constructor; assumption.
Qed.

Lemma counts_nonneg counts :
  Forall (fun c => exists n : nat, c = INR n) counts ->
  forall c, In c counts -> 0 <= c.
Proof.
  intros Hall c Hc. rewrite Forall_forall in Hall.
  destruct (Hall c Hc) as [n ->]. apply pos_INR.
Qed.

Lemma preferentialAttachment_loop_spec random :
  (forall k, 0 <= random k < 1) ->
  forall iterations i counts,
    counts <> [] ->
    Forall (fun c => exists n : nat, c = INR n) counts ->
    exists counts',
      preferentialAttachment_loop iterations random i counts = Some counts'
      /\ length counts' = length counts
      /\ sum counts' = sum counts + INR iterations
      /\ Forall (fun c => exists n : nat, c = INR n) counts'.
Proof.
  intros Hrand. induction iterations as [|iterations IH];
    intros i counts Hne Hall.
  - exists counts. simpl. repeat split; [lra | exact Hall].
  - cbn [preferentialAttachment_loop].
    pose proof (sample_index_range counts (random i) Hne (Hrand i)) as Hidx.
    unfold increment.
    destruct (Z.ltb_spec (samplePreferentialAttachment counts (random i)) 0)
      as [Hneg|_]; [lia|].
    destruct (increment_at_spec counts
                (Z.to_nat (samplePreferentialAttachment counts (random i))))
      as [c1 [H1 [H2 [H3 H4]]]]; [lia | exact Hall |].
    rewrite H1.
    destruct (IH (S i) c1) as [c2 [G1 [G2 [G3 G4]]]].
    + intros ->. destruct counts; [congruence | discriminate].
    + exact H4.
    + exists c2. rewrite S_INR. repeat split.
      * exact G1.
      * congruence.
      * rewrite G3, H3. lra.
      * exact G4.
Qed.

(** C9: for an array size of at least 1 and any draws in [0,1),
    [preferentialAttachment] returns an array of [arraySize] entries, each a
    natural number, whose sum is [iterations]. *)
Theorem preferentialAttachment_counts arraySize iterations random :
  (1 <= arraySize)%nat ->
  (forall k, 0 <= random k < 1) ->
  exists counts,
    preferentialAttachment arraySize iterations random = Some counts
    /\ length counts = arraySize
    /\ Forall (fun c => exists n : nat, c = INR n) counts
    /\ sum counts = INR iterations.
Proof.
  intros Hsize Hrand. unfold preferentialAttachment.
  destruct (preferentialAttachment_loop_spec random Hrand iterations 0%nat
              (repeat 0 arraySize)) as [counts [H1 [H2 [H3 H4]]]].
  - destruct arraySize; [lia | discriminate].
  - apply Forall_forall. intros c Hc. apply repeat_spec in Hc.
    exists 0%nat. exact Hc.
  - exists counts. repeat split.
    + exact H1.
    + rewrite H2. apply repeat_length.
    + exact H4.
    + rewrite H3, sum_repeat. lra.
Qed.

Lemma preferentialAttachment_counts_witness :
  exists counts,
    preferentialAttachment 2 3 (fun _ => 1 / 2) = Some counts
    /\ length counts = 2%nat
    /\ Forall (fun c => exists n : nat, c = INR n) counts
    /\ sum counts = INR 3.
Proof.
  apply (preferentialAttachment_counts 2 3 (fun _ => 1 / 2)).
  - lia.
  - intros _. lra.
Defined.

End Samplers.

(** ** Cumulative sums and measures of draws *)
Section Crossing.

Lemma cumulative_0 l : cumulative l 0 = 0.
Proof. reflexivity. Qed.

Lemma cumulative_cons x l k :
  cumulative (x :: l) (S k) = x + cumulative l k.
Proof. unfold cumulative. simpl. apply sum_cons. Qed.

Lemma cumulative_S l k :
  cumulative l (S k) = cumulative l k + nth k l 0.
Proof.
  revert k. induction l as [|x l IH]; intros k.
  - unfold cumulative. rewrite !firstn_nil. destruct k; simpl; lra.
  - destruct k as [|k].
    + rewrite cumulative_cons, !cumulative_0. simpl. lra.
    + rewrite !cumulative_cons, IH. simpl. lra.
Qed.

Lemma nth_nonneg l k :
  (forall c, In c l -> 0 <= c) -> 0 <= nth k l 0.
Proof.
  intros H. destruct (Nat.lt_ge_cases k (length l)) as [Hk|Hk].
  - apply H. apply nth_In. exact Hk.
  - rewrite nth_overflow by exact Hk. lra.
Qed.

Lemma cumulative_mono l j k :
  (forall c, In c l -> 0 <= c) ->
  (j <= k)%nat -> cumulative l j <= cumulative l k.
Proof.
  intros H Hjk. induction Hjk as [|k Hjk IH].
  - lra.
  - rewrite cumulative_S. pose proof (nth_nonneg l k H). lra.
Qed.

Lemma cumulative_all l k :
  (length l <= k)%nat -> cumulative l k = sum l.
Proof.
  intros H. unfold cumulative. rewrite firstn_all2 by exact H. reflexivity.
Qed.

Lemma cumulative_le_sum l k :
  (forall c, In c l -> 0 <= c) -> cumulative l k <= sum l.
Proof.
  intros H. rewrite <- (cumulative_all l (max k (length l))) by lia.
  apply cumulative_mono; [exact H | lia].
Qed.

Lemma cumulative_nonneg l k :
  (forall c, In c l -> 0 <= c) -> 0 <= cumulative l k.
Proof.
  intros H. rewrite <- (cumulative_0 l).
  apply cumulative_mono; [exact H | lia].
Qed.

(** At most one index is the least crossing of a draw. *)
Lemma least_crossing_unique l r i j :
  least_crossing l r i -> least_crossing l r j -> i = j.
Proof.
  intros [Hi1 Hi2] [Hj1 Hj2].
  destruct (Nat.lt_trichotomy i j) as [H|[H|H]].
  - specialize (Hj2 i H). lra.
  - exact H.
  - specialize (Hi2 j H). lra.
Qed.

(** The measure of a set of draws, when it has one, is unique. *)
Lemma has_measure_unique P m m' :
  has_measure P m -> has_measure P m' -> m = m'.
Proof.
  assert (Hle : forall a b, has_measure P a -> has_measure P b -> a <= b).
  { intros a b [lo [hi [H1 [H2 [H3 H4]]]]] [lo' [hi' [G1 [G2 [G3 G4]]]]].
    destruct (Rle_lt_dec a b) as [Hab|Hab]; [exact Hab|].
    exfalso.
    set (e := (a - b) / 4).
    assert (He : 0 < e) by (unfold e; lra).
    assert (Hx : lo < lo + e < hi) by (unfold e; lra).
    assert (Hy : lo < hi - e < hi) by (unfold e; lra).
    pose proof (G4 _ (H3 _ Hx)) as Gx.
    pose proof (G4 _ (H3 _ Hy)) as Gy.
    unfold e in *. lra. }
  intros H H'. apply Rle_antisym; apply Hle; assumption.
Qed.

(** A sampler that answers the least crossing of the scaled draw selects
    index [j] on a set of draws of measure [l[j] / sum l]. *)
Lemma crossing_has_measure (l : list R) (j : nat) (P : R -> Prop) :
  (forall c, In c l -> 0 <= c) ->
  0 < sum l ->
  (forall u, 0 <= u < 1 -> (P u <-> least_crossing l (u * sum l) j)) ->
  has_measure (fun u => 0 <= u < 1 /\ P u) (nth j l 0 / sum l).
Proof.
  intros Hpos HS HP.
  set (S := sum l) in *.
  exists (cumulative l j / S), (cumulative l (j + 1) / S).
  assert (Hj : cumulative l (j + 1) = cumulative l j + nth j l 0).
  { rewrite Nat.add_1_r. apply cumulative_S. }
  pose proof (nth_nonneg l j Hpos) as Hn.
  pose proof (cumulative_nonneg l j Hpos) as Hc0.
  pose proof (cumulative_le_sum l (j + 1) Hpos) as Hc1. fold S in Hc1.
  assert (Hd : forall c, c / S * S = c) by (intros c; field; lra).
  assert (Hlo : 0 <= cumulative l j / S).
  { apply Rmult_le_pos; [exact Hc0 | left; apply Rinv_0_lt_compat; exact HS]. }
  assert (Hhi : cumulative l (j + 1) / S <= 1).
  { apply (Rmult_le_reg_r S); [exact HS | rewrite Hd; lra]. }
  split; [|split; [|split]].
  - apply (Rmult_le_reg_r S); [exact HS | rewrite !Hd; lra].
  - rewrite Hj. field. lra.
  - intros x [Hx1 Hx2].
    assert (Hx : 0 <= x < 1) by lra.
    split; [exact Hx|]. apply (HP x Hx). split.
    + rewrite <- (Hd (cumulative l (j + 1))).
      apply Rmult_le_compat_r; lra.
    + intros i Hi.
      apply Rle_lt_trans with (cumulative l j).
      * apply cumulative_mono; [exact Hpos | lia].
      * rewrite <- (Hd (cumulative l j)).
        apply Rmult_lt_compat_r; lra.
  - intros x [Hx HPx]. apply (HP x Hx) in HPx. destruct HPx as [H1 H2]. split.
    + destruct j as [|j].
      * rewrite cumulative_0. unfold Rdiv. rewrite Rmult_0_l. lra.
      * specialize (H2 j (Nat.lt_succ_diag_r j)).
        rewrite Nat.add_1_r in H2.
        apply (Rmult_le_reg_r S); [exact HS | rewrite Hd; lra].
    + apply (Rmult_le_reg_r S); [exact HS | rewrite Hd; lra].
Qed.

End Crossing.

(** ** Which index the cumulative loops select *)
Section Selection.

Import Attachment PowerLaw.

Lemma sample_loop_least random :
  forall rest acc j len,
    rest <> [] ->
    random <= acc + sum rest ->
    exists i,
      (i < length rest)%nat
      /\ sample_loop random acc j rest len = (j + Z.of_nat i)%Z
      /\ random <= acc + cumulative rest (i + 1)
      /\ (forall i', (i' < i)%nat -> acc + cumulative rest (i' + 1) < random).
Proof.
  induction rest as [|c rest IH]; intros acc j len Hne Hr; [congruence|].
  simpl. destruct (Rle_dec random (acc + c)) as [Hle|Hgt].
  - exists 0%nat. simpl. rewrite cumulative_cons, cumulative_0.
    repeat split; [lia | lia | lra | intros i' Hi'; lia].
  - rewrite sum_cons in Hr.
    destruct (IH (acc + c) (j + 1)%Z len) as [i [H1 [H2 [H3 H4]]]].
    + intros ->. rewrite sum_nil in Hr. lra.
    + lra.
    + exists (S i). simpl. rewrite cumulative_cons.
      repeat split; [lia | rewrite H2; lia | lra |].
      intros i' Hi'. destruct i' as [|i'].
      * simpl. rewrite cumulative_cons, cumulative_0. lra.
      * simpl. rewrite cumulative_cons.
        assert (Hlt : (i' < i)%nat) by lia. specialize (H4 i' Hlt). lra.
Qed.

(** On counts of positive sum the sampler answers the least crossing of the
    scaled draw. *)
Lemma samplePreferentialAttachment_crossing counts u :
  (forall c, In c counts -> 0 <= c) ->
  0 < sum counts ->
  0 <= u < 1 ->
  exists j,
    samplePreferentialAttachment counts u = Z.of_nat j
    /\ (j < length counts)%nat
    /\ least_crossing counts (u * sum counts) j.
Proof.
  intros Hpos HS Hu. unfold samplePreferentialAttachment.
  destruct (Req_dec_T (sum counts) 0) as [Hz|_]; [lra|].
  destruct (sample_loop_least (u * sum counts) counts 0 0%Z
              (Z.of_nat (length counts))) as [i [H1 [H2 [H3 H4]]]].
  - intros ->. rewrite sum_nil in HS. lra.
  - nra.
  - exists i. split; [rewrite H2; lia|]. split; [exact H1|]. split.
    + lra.
    + intros i' Hi'. specialize (H4 i' Hi'). lra.
Qed.

(** C2, as amended: for non-negative counts of positive sum [S] and a draw
    [u] in [0,1), scaled to [r = u * S], [samplePreferentialAttachment]
    returns the least index [j] whose cumulative sum reaches [r]: [r] lies in
    the left-open, right-closed cumulative interval of [counts[j]] when
    [r > 0], and [j = 0] when [r = 0]. Hence the draws selecting [j] have
    measure [counts[j] / S]. *)
Theorem samplePreferentialAttachment_proportional counts :
  (forall c, In c counts -> 0 <= c) ->
  0 < sum counts ->
  (forall u, 0 <= u < 1 ->
     exists j,
       samplePreferentialAttachment counts u = Z.of_nat j
       /\ (j < length counts)%nat
       /\ least_crossing counts (u * sum counts) j
       /\ (0 < u -> in_open_closed counts j (u * sum counts))
       /\ (u = 0 -> j = 0%nat))
  /\ (forall j, (j < length counts)%nat ->
        has_measure
          (fun u => 0 <= u < 1
                    /\ samplePreferentialAttachment counts u = Z.of_nat j)
          (nth j counts 0 / sum counts)).
Proof.
  intros Hpos HS. split.
  - intros u Hu.
    destruct (samplePreferentialAttachment_crossing counts u Hpos HS Hu)
      as [j [H1 [H2 H3]]].
    exists j. split; [exact H1|]. split; [exact H2|]. split; [exact H3|].
    split.
    + intros Hu0. destruct H3 as [H3a H3b]. split; [|exact H3a].
      destruct j as [|j].
      * rewrite cumulative_0. nra.
      * specialize (H3b j (Nat.lt_succ_diag_r j)).
        rewrite Nat.add_1_r in H3b. exact H3b.
    + intros ->. apply (least_crossing_unique counts (0 * sum counts)).
      * exact H3.
      * split; [|intros i Hi; lia].
        pose proof (cumulative_nonneg counts (0 + 1) Hpos). lra.
  - intros j Hj. apply crossing_has_measure; [exact Hpos | exact HS |].
    intros u Hu.
    destruct (samplePreferentialAttachment_crossing counts u Hpos HS Hu)
      as [j' [H1 [H2 H3]]].
    split.
    + intros H. rewrite H1 in H. apply Nat2Z.inj in H. subst j'. exact H3.
    + intros H. rewrite H1. f_equal.
      apply (least_crossing_unique counts (u * sum counts)); assumption.
Qed.

Lemma samplePreferentialAttachment_proportional_witness :
  has_measure
    (fun u => 0 <= u < 1 /\ samplePreferentialAttachment [1; 3] u = Z.of_nat 1)
    (nth 1 [1; 3] 0 / sum [1; 3]).
Proof.
  apply (samplePreferentialAttachment_proportional [1; 3]).
  - intros c Hc. simpl in Hc. lra.
  - unfold sum. simpl. lra.
  - simpl. lia.
Defined.

(** C2, as stated, fails: on counts [0, 5] the draw 0 selects index 0, whose
    cumulative interval is empty under either half-open reading. *)
Lemma samplePreferentialAttachment_outside_interval :
  let counts := [0; 5] in
  let u := 0 in
  (forall c, In c counts -> 0 <= c)
  /\ 0 < sum counts
  /\ 0 <= u * sum counts < sum counts
  /\ samplePreferentialAttachment counts u = 0%Z
  /\ ~ in_closed_open counts 0 (u * sum counts)
  /\ ~ in_open_closed counts 0 (u * sum counts).
Proof.
  assert (HS : sum [0; 5] = 5) by (unfold sum; simpl; lra).
  cbv zeta. rewrite HS. repeat split.
  - intros c Hc. simpl in Hc. lra.
  - lra.
  - lra.
  - lra.
  - unfold samplePreferentialAttachment. rewrite HS.
    destruct (Req_dec_T 5 0) as [H|_]; [lra|].
    simpl. decide_R. reflexivity.
  - unfold in_closed_open, cumulative, sum. simpl. lra.
  - unfold in_open_closed, cumulative, sum. simpl. lra.
Qed.

End Selection.

(** ** The growth step of the power-law generator *)
Section GrowthStep.

Import PowerLaw.

Lemma sum_pos (l : list R) :
  l <> [] -> (forall c, In c l -> 0 < c) -> 0 < sum l.
Proof.
  intros Hne Hpos. destruct l as [|x l]; [congruence|].
  rewrite sum_cons.
  assert (0 < x) by (apply Hpos; left; reflexivity).
  assert (0 <= sum l).
  { apply sum_nonneg. intros c Hc. left. apply Hpos. right. exact Hc. }
  lra.
Qed.

Lemma increment_loop_positive r :
  forall weights values acc,
    (forall v, In v values -> 0 < v) ->
    forall v, In v (increment_loop r acc weights values) -> 0 < v.
Proof.
  induction weights as [|w weights IH]; intros values acc Hpos v Hv.
  - simpl in Hv. apply Hpos. exact Hv.
  - destruct values as [|x values]; [simpl in Hv; contradiction|].
    assert (Hx : 0 < x) by (apply Hpos; left; reflexivity).
    simpl in Hv. destruct (Rle_dec r (acc + w)); destruct Hv as [<-|Hv].
    + lra.
    + apply Hpos. right. exact Hv.
    + exact Hx.
    + apply (IH values (acc + w)); [|exact Hv].
      intros y Hy. apply Hpos. right. exact Hy.
Qed.

(** Every growth step of [generatePowerLawPreferential] runs on positive
    values: the initial ones are 1, and a step only adds 1 to an entry or
    appends a 1. *)
Lemma preferentialAttachmentStep_positive values alpha p u1 u2 :
  (forall v, In v values -> 0 < v) ->
  forall v, In v (preferentialAttachmentStep values alpha p u1 u2) -> 0 < v.
Proof.
  intros Hpos v Hv. unfold preferentialAttachmentStep in Hv.
  destruct (Rlt_dec u2 p).
  - apply in_app_or in Hv. destruct Hv as [Hv|Hv].
    + apply (increment_loop_positive _ _ _ _ Hpos v Hv).
    + simpl in Hv. destruct Hv as [<-|[]]. lra.
  - apply (increment_loop_positive _ _ _ _ Hpos v Hv).
Qed.

Lemma growth_loop_positive alpha p random :
  forall steps k values,
    (forall v, In v values -> 0 < v) ->
    forall v, In v (growth_loop steps alpha p random k values) -> 0 < v.
Proof.
  induction steps as [|steps IH]; intros k values Hpos v Hv.
  - apply Hpos. exact Hv.
  - simpl in Hv. apply (IH _ _ (preferentialAttachmentStep_positive
                                  values alpha p _ _ Hpos) v Hv).
Qed.

(** The loop increments the entry at the least crossing of [r] and nothing
    else. *)
Lemma increment_loop_least r :
  forall weights values acc,
    length weights = length values ->
    weights <> [] ->
    r <= acc + sum weights ->
    exists i,
      increments values (increment_loop r acc weights values) i
      /\ (forall k, k <> i ->
            nth_error (increment_loop r acc weights values) k
            = nth_error values k)
      /\ length (increment_loop r acc weights values) = length values
      /\ r <= acc + cumulative weights (i + 1)
      /\ (forall i', (i' < i)%nat -> acc + cumulative weights (i' + 1) < r).
Proof.
  induction weights as [|w weights IH]; intros values acc Hlen Hne Hr;
    [congruence|].
  destruct values as [|v values]; [discriminate|].
  simpl. destruct (Rle_dec r (acc + w)) as [Hle|Hgt].
  - exists 0%nat. split; [exists v; split; reflexivity|].
    split; [intros k Hk; destruct k; [congruence | reflexivity]|].
    split; [reflexivity|].
    simpl. rewrite cumulative_cons, cumulative_0.
    split; [lra | intros i' Hi'; lia].
  - rewrite sum_cons in Hr. simpl in Hlen.
    destruct (IH values (acc + w)) as [i [[x [X1 X2]] [H2 [H3 [H4 H5]]]]].
    + lia.
    + intros ->. rewrite sum_nil in Hr. lra.
    + lra.
    + exists (S i). split; [exists x; split; assumption|].
      split.
      { intros k Hk. destruct k as [|k]; [reflexivity|].
        simpl. apply H2. congruence. }
      split; [simpl; congruence|].
      simpl. rewrite cumulative_cons. split; [lra|].
      intros i' Hi'. destruct i' as [|i'].
      * simpl. rewrite cumulative_cons, cumulative_0. lra.
      * simpl. rewrite cumulative_cons.
        assert (Hlt : (i' < i)%nat) by lia. specialize (H5 i' Hlt). lra.
Qed.

(** [values.push(1)] does not change which entry was incremented. *)
Lemma increments_push values values' i :
  length values' = length values ->
  increments values (values' ++ [1]) i <-> increments values values' i.
Proof.
  intros Hlen. unfold increments. split; intros [v [H1 H2]]; exists v;
    (split; [exact H1|]);
    assert (Hi : (i < length values')%nat)
      by (rewrite Hlen; apply nth_error_Some; congruence).
  - rewrite nth_error_app1 in H2 by exact Hi. exact H2.
  - rewrite nth_error_app1 by exact Hi. exact H2.
Qed.

(** The step increments entry [i] exactly when [i] is the least crossing of
    the scaled draw among the weights. *)
Lemma preferentialAttachmentStep_crossing values alpha p u1 u2 i :
  values <> [] ->
  (forall v, In v values -> 0 < v) ->
  0 <= u1 < 1 ->
  let weights := map (fun v => Math_pow v (1 / (alpha - 1))) values in
  increments values (preferentialAttachmentStep values alpha p u1 u2) i
  <-> least_crossing weights (u1 * sum weights) i.
Proof.
  intros Hne Hpos Hu weights.
  assert (Hw : forall c, In c weights -> 0 < c).
  { intros c Hc. apply in_map_iff in Hc. destruct Hc as [v [<- _]].
    apply exp_pos. }
  assert (Hwne : weights <> []).
  { unfold weights. destruct values; [congruence | discriminate]. }
  pose proof (sum_pos weights Hwne Hw) as HW.
  destruct (increment_loop_least (u1 * sum weights) weights values 0)
    as [i0 [H1 [H2 [H3 [H4 H5]]]]].
  { apply length_map. }
  { exact Hwne. }
  { nra. }
  assert (Hc0 : least_crossing weights (u1 * sum weights) i0).
  { split; [lra|]. intros i' Hi'. specialize (H5 i' Hi'). lra. }
  assert (Hstep : increments values
                    (preferentialAttachmentStep values alpha p u1 u2) i
                  <-> increments values
                        (increment_loop (u1 * sum weights) 0 weights values) i).
  { unfold preferentialAttachmentStep. fold weights.
    destruct (Rlt_dec u2 p); [apply increments_push; exact H3 | tauto]. }
  rewrite Hstep. split.
  - intros [v [V1 V2]].
    destruct (Nat.eq_dec i i0) as [->|Hneq]; [exact Hc0|].
    rewrite (H2 i Hneq), V1 in V2. injection V2 as V2. lra.
  - intros Hc.
    rewrite (least_crossing_unique _ _ _ _ Hc Hc0). exact H1.
Qed.

(** The draws for which a step increments [values[i]] have the measure of
    the normalised weight of [i]. *)
Lemma growth_step_measure values alpha p u2 i :
  (forall v, In v values -> 0 < v) ->
  (i < length values)%nat ->
  let weights := map (fun v => Math_pow v (1 / (alpha - 1))) values in
  has_measure
    (fun u => 0 <= u < 1
              /\ increments values
                   (preferentialAttachmentStep values alpha p u u2) i)
    (nth i weights 0 / sum weights).
Proof.
  intros Hpos Hi weights.
  assert (Hne : values <> []).
  { destruct values; [simpl in Hi; lia | discriminate]. }
  assert (Hw : forall c, In c weights -> 0 < c).
  { intros c Hc. apply in_map_iff in Hc. destruct Hc as [v [<- _]].
    apply exp_pos. }
  assert (Hwne : weights <> []).
  { unfold weights. destruct values; [congruence | discriminate]. }
  apply crossing_has_measure.
  - intros c Hc. left. apply Hw. exact Hc.
  - apply sum_pos; assumption.
  - intros u Hu.
    apply preferentialAttachmentStep_crossing; assumption.
Qed.

(** C1, as amended: in a growth step on positive values, with [alpha]
    different from 1, the draws for which the step increments [values[i]]
    have measure [w_i / sum of w] for the weights
    [w_k = values[k] ^ (1 / (alpha - 1))]; this is [values[i] / sum of values]
    when [alpha = 2]. *)
Theorem preferentialAttachmentStep_proportional values alpha p u2 i :
  (forall v, In v values -> 0 < v) ->
  alpha <> 1 ->
  (i < length values)%nat ->
  let weights := map (fun v => Math_pow v (1 / (alpha - 1))) values in
  has_measure
    (fun u => 0 <= u < 1
              /\ increments values
                   (preferentialAttachmentStep values alpha p u u2) i)
    (nth i weights 0 / sum weights)
  /\ (alpha = 2 ->
      has_measure
        (fun u => 0 <= u < 1
                  /\ increments values
                       (preferentialAttachmentStep values alpha p u u2) i)
        (nth i values 0 / sum values)).
Proof.
  intros Hpos _ Hi weights.
  pose proof (growth_step_measure values alpha p u2 i Hpos Hi) as Hm.
  cbv zeta in Hm. fold weights in Hm.
  split; [exact Hm|].
  intros Ha.
  assert (Heq : weights = values).
  { unfold weights. rewrite <- (map_id values) at 2.
    apply map_ext_in. intros v Hv. unfold Math_pow.
    replace (1 / (alpha - 1)) with 1 by (rewrite Ha; field).
    apply Rpower_1. apply Hpos. exact Hv. }
  rewrite Heq in Hm. exact Hm.
Qed.

Lemma preferentialAttachmentStep_proportional_witness :
  has_measure
    (fun u => 0 <= u < 1
              /\ increments [1; 2]
                   (preferentialAttachmentStep [1; 2] 2 (1 / 10) u (1 / 2)) 0)
    (nth 0 [1; 2] 0 / sum [1; 2]).
Proof.
  apply (preferentialAttachmentStep_proportional [1; 2] 2 (1 / 10) (1 / 2) 0).
  - intros v Hv. simpl in Hv. lra.
  - lra.
  - simpl. lia.
  - reflexivity.
Defined.

(** C1, as stated, fails: with [alpha = 1.5] the weights of the values
    [1, 2] are [1, 4], so the first entry is incremented on the draws up to
    1/5, not on a set of draws of measure 1/3. *)
Lemma preferentialAttachmentStep_not_proportional_to_values :
  let values := [1; 2] in
  let alpha := 3 / 2 in
  let hit := fun u =>
    0 <= u < 1
    /\ increments values
         (preferentialAttachmentStep values alpha (1 / 10) u (1 / 2)) 0 in
  (forall v, In v values -> 0 < v)
  /\ has_measure hit (1 / 5)
  /\ ~ has_measure hit (nth 0 values 0 / sum values).
Proof.
  cbv zeta. split; [intros v Hv; simpl in Hv; lra|].
  assert (Hw : map (fun v => Math_pow v (1 / (3 / 2 - 1))) [1; 2] = [1; 4]).
  { simpl. unfold Math_pow.
    replace (1 / (3 / 2 - 1)) with (INR 2) by (simpl; lra).
    rewrite !Rpower_pow by lra. f_equal; [lra|]. f_equal. lra. }
  assert (Hactual :
    has_measure
      (fun u => 0 <= u < 1
                /\ increments [1; 2]
                     (preferentialAttachmentStep [1; 2] (3 / 2) (1 / 10) u
                        (1 / 2)) 0)
      (1 / 5)).
  { pose proof (growth_step_measure [1; 2] (3 / 2) (1 / 10) (1 / 2) 0) as H.
    cbv zeta in H. rewrite Hw in H.
    replace (1 / 5) with (nth 0 [1; 4] 0 / sum [1; 4])
      by (unfold sum; simpl; lra).
    apply H.
    - intros v Hv. simpl in Hv. lra.
    - simpl. lia. }
  split; [exact Hactual|].
  intros Hclaimed.
  pose proof (has_measure_unique _ _ _ Hactual Hclaimed) as Heq.
  unfold sum in Heq. simpl in Heq. lra.
Qed.

End GrowthStep.

(** ** The Gini coefficient *)
Section Gini.

Import Attachment.

Lemma insert_ascending_In x l y :
  In y (insert_ascending x l) <-> y = x \/ In y l.
Proof.
  induction l as [|z l IH]; simpl.
  - intuition.
  - destruct (Rle_dec x z); simpl; [intuition | rewrite IH; intuition].
Qed.

Lemma insert_ascending_length x l :
  length (insert_ascending x l) = S (length l).
Proof.
  induction l as [|z l IH]; simpl; [reflexivity|].
  destruct (Rle_dec x z); simpl; [reflexivity | rewrite IH; reflexivity].
Qed.

Lemma insert_ascending_sorted x l :
  StronglySorted Rle l -> StronglySorted Rle (insert_ascending x l).
Proof.
  induction l as [|z l IH]; intros Hs; simpl.
  - constructor; constructor.
  - inversion Hs as [|z' l' Hsl Hall]; subst.
    destruct (Rle_dec x z) as [Hle|Hgt].
    + constructor; [exact Hs|]. constructor; [exact Hle|].
      rewrite Forall_forall in *. intros y Hy. specialize (Hall y Hy). lra.
    + constructor; [apply IH; exact Hsl|].
      rewrite Forall_forall in *. intros y Hy.
      apply insert_ascending_In in Hy. destruct Hy as [->|Hy];
        [lra | apply Hall; exact Hy].
Qed.

Lemma sort_ascending_In l y : In y (sort_ascending l) <-> In y l.
Proof.
  induction l as [|x l IH]; simpl; [tauto|].
  rewrite insert_ascending_In, IH. intuition.
Qed.

Lemma sort_ascending_length l : length (sort_ascending l) = length l.
Proof.
  induction l as [|x l IH]; simpl; [reflexivity|].
  rewrite insert_ascending_length, IH. reflexivity.
Qed.

Lemma sort_ascending_sorted l : StronglySorted Rle (sort_ascending l).
Proof.
  induction l as [|x l IH]; simpl; [constructor|].
  apply insert_ascending_sorted. exact IH.
Qed.

(** The loop adds the weighted sum of what is left to the numerator. *)
Lemma gini_loop_weighted_sum n :
  forall rest i numerator,
    gini_loop n i rest numerator
    = numerator + weighted_sum (2 * (INR i + 1) - n - 1) rest.
Proof.
  induction rest as [|v rest IH]; intros i numerator; simpl.
  - lra.
  - rewrite IH, S_INR.
    replace (2 * (INR i + 1 + 1) - n - 1) with (2 * (INR i + 1) - n - 1 + 2)
      by lra.
    lra.
Qed.


Lemma weighted_sum_upper :
  forall l c M,
    (forall v, In v l -> 0 <= v) ->
    c + 2 * INR (length l) - 2 <= M ->
    0 <= M ->
    weighted_sum c l <= M * sum l.
Proof.
  induction l as [|v l IH]; intros c M Hpos Hc HM.
  - simpl. rewrite sum_nil. lra.
  - cbn [weighted_sum]. rewrite sum_cons.
    change (length (v :: l)) with (S (length l)) in Hc. rewrite S_INR in Hc.
    assert (Hv : 0 <= v) by (apply Hpos; left; reflexivity).
    assert (Hl : 0 <= INR (length l)) by apply pos_INR.
    assert (IH' : weighted_sum (c + 2) l <= M * sum l).
    { apply IH; [intros w Hw; apply Hpos; right; exact Hw | lra | exact HM]. }
    assert (c * v <= M * v) by (apply Rmult_le_compat_r; lra).
    lra.
Qed.





End Gini.

(** ** The function line counters *)
Section Counters.

Import TreeSitter.

Lemma node_forall_ind (P : node -> Prop) :
  (forall t s e ch, Forall P ch -> P (Node t s e ch)) ->
  forall n, P n.
Proof.
  intros H. fix IH 1. intros [t s e ch]. apply H.
  induction ch as [|c ch IHch]; constructor; [apply IH | exact IHch].
Qed.

(** [traverseNode] appends, in visiting order, the line count of every
    function node that spans more than one line. *)
Lemma traverseNode_preorder n :
  forall lineCounts,
    traverseNode n lineCounts
    = lineCounts ++ map node_lines (filter multi_line_function (preorder n)).
Proof.
  induction n as [t s e ch IH] using node_forall_ind. intros acc.
  assert (Hfold : forall l a,
            Forall (fun n => forall lineCounts,
                      traverseNode n lineCounts
                      = lineCounts
                        ++ map node_lines
                             (filter multi_line_function (preorder n))) l ->
            fold_left (fun acc child => traverseNode child acc) l a
            = a ++ map node_lines
                     (filter multi_line_function (flat_map preorder l))).
  { induction l as [|c l IHl]; intros a Hall.
    - simpl. rewrite app_nil_r. reflexivity.
    - inversion Hall as [|c' l' Hc Hl]; subst.
      simpl. rewrite Hc, (IHl _ Hl), filter_app, map_app, app_assoc.
      reflexivity. }
  assert (Hm : multi_line_function (Node t s e ch)
               = is_function t && (1 <? row e - row s + 1)%Z)
    by reflexivity.
  assert (Hl : node_lines (Node t s e ch) = (row e - row s + 1)%Z)
    by reflexivity.
  cbn [traverseNode]. rewrite (Hfold ch _ IH).
  cbn [preorder filter]. rewrite Hm.
  destruct (is_function t); destruct (1 <? row e - row s + 1)%Z;
    cbn [andb map]; rewrite ?Hl, <- ?app_assoc; reflexivity.
Qed.

End Counters.

(** ** The brace-matching counter *)
Section BraceCounter.

Import BraceScanner.

Lemma scan_line_inv lines i st :
  (i < length lines)%nat ->
  scan_inv lines i st ->
  scan_inv lines (S i) (scan_line lines i st).
Proof.
  intros Hi [Hin Hall]. unfold scan_line.
  set (line := trim (nth i lines EmptyString)).
  destruct (skipped line) eqn:Hskip.
  { split; [|exact Hall]. intros H.
    destruct (Hin H) as [s [H1 [H2 H3]]]. exists s.
    split; [lia|]. split; assumption. }
  cbv zeta.
  set (oP := count_char "(" line). set (cP := count_char ")" line).
  set (oB := count_char "{" line). set (cB := count_char "}" line).
  assert (Hproc : processed lines i) by exact Hskip.
  (* the state after the detection of a start *)
  assert (Hclose : forall start bc pc,
            (start = Z.of_nat i
             \/ exists s, (s < i)%nat /\ start = Z.of_nat s
                          /\ start_line lines s) ->
            (start = Z.of_nat i -> start_line lines i) ->
            scan_inv lines (S i)
              (if inFunction (mkState true start bc pc (lineCounts st)) then
                 if ((braceCount (mkState true start bc pc (lineCounts st))
                      + (oB - cB) =? 0)%Z
                     && ((0 <? oB)%Z || (0 <? cB)%Z))
                 then
                   mkState false
                     (functionStartLine
                        (mkState true start bc pc (lineCounts st)))
                     (braceCount (mkState true start bc pc (lineCounts st))
                      + (oB - cB))%Z 0
                     (if (1 <? Z.of_nat i
                               - functionStartLine
                                   (mkState true start bc pc (lineCounts st))
                               + 1)%Z
                      then lineCounts
                             (mkState true start bc pc (lineCounts st))
                           ++ [(Z.of_nat i
                                - functionStartLine
                                    (mkState true start bc pc (lineCounts st))
                                + 1)%Z]
                      else lineCounts
                             (mkState true start bc pc (lineCounts st)))
                 else
                   mkState true
                     (functionStartLine
                        (mkState true start bc pc (lineCounts st)))
                     (braceCount (mkState true start bc pc (lineCounts st))
                      + (oB - cB))%Z
                     (parenCount (mkState true start bc pc (lineCounts st)))
                     (lineCounts (mkState true start bc pc (lineCounts st)))
               else mkState true start bc pc (lineCounts st))).
  { intros start bc pc Hstart Hnow. cbn [inFunction functionStartLine
      braceCount parenCount lineCounts].
    destruct ((bc + (oB - cB) =? 0)%Z && ((0 <? oB)%Z || (0 <? cB)%Z))
      eqn:Hc.
    - split; [intros H; discriminate|]. cbn [lineCounts].
      destruct (1 <? Z.of_nat i - start + 1)%Z eqn:Hlc; [|exact Hall].
      apply Z.ltb_lt in Hlc.
      apply Forall_app. split; [exact Hall|]. constructor; [|constructor].
      destruct Hstart as [->|[s [Hs1 [Hs2 Hs3]]]]; [lia|].
      split; [exact Hlc|]. exists s, i. split; [lia|].
      split; [exact Hs3|]. split; [|rewrite Hs2; reflexivity].
      split; [exact Hproc|].
      apply andb_prop in Hc. destruct Hc as [_ Hc].
      apply orb_prop in Hc. fold line. fold oB cB.
      destruct Hc as [Hc|Hc]; apply Z.ltb_lt in Hc; [left | right]; exact Hc.
    - split; [|exact Hall]. intros _. cbn [functionStartLine].
      destruct Hstart as [->|[s [Hs1 [Hs2 Hs3]]]].
      + exists i. split; [lia|]. split; [reflexivity|]. apply Hnow.
        reflexivity.
      + exists s. split; [lia|]. split; assumption. }
  destruct (inFunction st) eqn:Hf.
  - (* already inside a function *)
    cbn [negb andb].
    destruct (Hin eq_refl) as [s [Hs1 [Hs2 Hs3]]].
    apply Hclose.
    + right. exists s. split; [exact Hs1|]. split; assumption.
    + intros Heq. rewrite Heq in Hs2. apply Nat2Z.inj in Hs2. lia.
  - cbn [negb andb].
    destruct ((0 <? oP)%Z && (parenCount st + (oP - cP) =? 0)%Z
              && (0 <? oB)%Z) eqn:Hc1.
    + (* a signature with its brace on the same line *)
      apply Hclose; [left; reflexivity|]. intros _.
      apply andb_prop in Hc1. destruct Hc1 as [Hc1 HoB].
      apply andb_prop in Hc1. destruct Hc1 as [HoP _].
      apply Z.ltb_lt in HoB. apply Z.ltb_lt in HoP.
      split; [exact Hproc|]. fold line. fold oP oB.
      split; [exact HoP | left; exact HoB].
    + destruct ((0 <? oP)%Z && (parenCount st + (oP - cP) =? 0)%Z
                && includes ")" line && negb (includes ";" line)) eqn:Hc2.
      * destruct ((i + 1 <? length lines)%nat
                  && startsWith "{"
                       (trim (nth (i + 1) lines EmptyString))) eqn:Hc3.
        -- (* a signature followed by a line that starts with a brace *)
           apply Hclose; [left; reflexivity|]. intros _.
           apply andb_prop in Hc2. destruct Hc2 as [Hc2 Hsemi].
           apply andb_prop in Hc2. destruct Hc2 as [Hc2 Hparen].
           apply andb_prop in Hc2. destruct Hc2 as [HoP _].
           apply andb_prop in Hc3. destruct Hc3 as [Hnext Hbrace].
           apply Z.ltb_lt in HoP. apply Nat.ltb_lt in Hnext.
           apply negb_true_iff in Hsemi.
           split; [exact Hproc|]. fold line. fold oP oB.
           split; [exact HoP|]. right. repeat split; assumption.
        -- cbn [inFunction].
           split; [intros H; discriminate | exact Hall].
      * cbn [inFunction].
        split; [intros H; discriminate | exact Hall].
Qed.

Lemma scan_inv_rounds lines :
  forall rounds i st,
    (i + rounds <= length lines)%nat ->
    scan_inv lines i st ->
    scan_inv lines (i + rounds) (scan lines rounds i st).
Proof.
  induction rounds as [|rounds IH]; intros i st Hle Hinv.
  - rewrite Nat.add_0_r. exact Hinv.
  - cbn [scan]. replace (i + S rounds)%nat with (S i + rounds)%nat by lia.
    apply IH; [lia|]. apply scan_line_inv; [lia | exact Hinv].
Qed.

(** Inside a function a processed line ends it exactly when the counter
    [braceCount] of the scanner comes to 0 on a line with a brace; otherwise
    nothing is recorded and the scanner stays inside the function. *)
Lemma scan_line_inside lines i st :
  inFunction st = true ->
  processed lines i ->
  let line := trim (nth i lines EmptyString) in
  let openBraces := count_char "{" line in
  let closeBraces := count_char "}" line in
  let count := (braceCount st + (openBraces - closeBraces))%Z in
  scan_line lines i st =
  if (count =? 0)%Z && ((0 <? openBraces)%Z || (0 <? closeBraces)%Z)
  then mkState false (functionStartLine st) count 0
         (if (1 <? Z.of_nat i - functionStartLine st + 1)%Z
          then lineCounts st ++ [(Z.of_nat i - functionStartLine st + 1)%Z]
          else lineCounts st)
  else mkState true (functionStartLine st) count
         (parenCount st
          + (count_char "(" line - count_char ")" line))%Z
         (lineCounts st).
Proof.
  intros Hf Hproc. unfold scan_line. unfold processed in Hproc.
  rewrite Hproc, Hf. reflexivity.
Qed.

(** On a signature that has its brace on the same line the braces of the
    line are added to [braceCount] twice: once by the detection of the start
    and once more by the update that every line inside a function gets. *)
Lemma same_line_start_counted_twice lines i st :
  inFunction st = false ->
  processed lines i ->
  let line := trim (nth i lines EmptyString) in
  let openParens := count_char "(" line in
  let closeParens := count_char ")" line in
  let openBraces := count_char "{" line in
  let closeBraces := count_char "}" line in
  (0 < openParens)%Z ->
  (parenCount st + (openParens - closeParens) = 0)%Z ->
  (0 < openBraces)%Z ->
  braceCount (scan_line lines i st) = (2 * (openBraces - closeBraces))%Z.
Proof.
  intros Hf Hproc line oP cP oB cB HoP Hpc HoB.
  unfold scan_line. unfold processed in Hproc. rewrite Hproc, Hf.
  fold line. cbv zeta. fold oP cP oB cB.
  apply Z.ltb_lt in HoP. apply Z.ltb_lt in HoB. apply Z.eqb_eq in Hpc.
  rewrite HoP, Hpc, HoB. cbn [negb andb inFunction braceCount].
  destruct ((oB - cB + (oB - cB) =? 0)%Z && (true || (0 <? cB)%Z));
    cbn [braceCount]; lia.
Qed.

(** C8: on the three lines [int f() {], [return 1;], [}] the start is
    detected on line 0 and the brace depth is 1, 1, 0 after lines 0, 1, 2, so
    the depth returns to 0 on line 2; but the scanner has counted the brace
    of line 0 twice, its counter is 2, 2, 1, and no function is recorded. The
    same function with the brace on a line of its own is recorded with its 4
    lines. *)
Theorem same_line_brace_function_not_recorded :
  let content :=
    ("int f() {" ++ newline ++ "  return 1;" ++ newline ++ "}")%string in
  let lines := split_lines content in
  lines = ["int f() {"; "  return 1;"; "}"]%string
  /\ inFunction (scan lines 1 0 initial) = true
  /\ functionStartLine (scan lines 1 0 initial) = 0%Z
  /\ map (brace_depth lines 0) [0; 1; 2]%nat = [1; 1; 0]%Z
  /\ map (fun n => braceCount (scan lines n 0 initial)) [1; 2; 3]%nat
     = [2; 2; 1]%Z
  /\ inFunction (scan lines 3 0 initial) = true
  /\ BraceScanner.countFunctionLines content = []
  /\ BraceScanner.countFunctionLines
       ("int f()" ++ newline ++ "{" ++ newline ++ "  return 1;" ++ newline
        ++ "}")%string
     = [4%Z].
Proof.
  vm_compute. repeat split; reflexivity.
Qed.

End BraceCounter.

(** ** The exit round of the threshold-crossing loops *)
Section ExitRound.

Import IterationGenerator PowerLaw.

Lemma generateIterations_loop_exit_round g random :
  forall fuel k s n r,
    generateIterations_loop fuel g random k s n = Some r <->
    exists j, (j < fuel)%nat /\ r = (n + j)%nat
              /\ (forall i, (i < j)%nat -> s * (1 + g) ^ i <= random (k + i)%nat)
              /\ random (k + j)%nat < s * (1 + g) ^ j.
Proof.
  induction fuel as [|fuel IH]; intros k s n r.
  - simpl. split; [discriminate | intros [j [Hj _]]; lia].
  - simpl. destruct (Rle_dec s (random k)) as [Hle|Hgt].
    + rewrite IH. split.
      * intros [j [H1 [H2 [H3 H4]]]]. exists (S j).
        split; [lia|]. split; [lia|]. split.
        -- intros i Hi. destruct i as [|i].
           ++ rewrite Nat.add_0_r. simpl. lra.
           ++ replace (k + S i)%nat with (S k + i)%nat by lia.
              simpl. rewrite <- Rmult_assoc. apply H3. lia.
        -- replace (k + S j)%nat with (S k + j)%nat by lia.
           simpl. rewrite <- Rmult_assoc. exact H4.
      * intros [j [H1 [H2 [H3 H4]]]]. destruct j as [|j].
        -- rewrite Nat.add_0_r in H4. simpl in H4. lra.
        -- exists j. split; [lia|]. split; [lia|]. split.
           ++ intros i Hi. specialize (H3 (S i) ltac:(lia)).
              replace (k + S i)%nat with (S k + i)%nat in H3 by lia.
              simpl in H3. rewrite <- Rmult_assoc in H3. exact H3.
           ++ replace (k + S j)%nat with (S k + j)%nat in H4 by lia.
              simpl in H4. rewrite <- Rmult_assoc in H4. exact H4.
    + split.
      * intros H. injection H as <-. exists 0%nat.
        split; [lia|]. split; [lia|]. split; [intros i Hi; lia|].
        rewrite Nat.add_0_r. simpl. lra.
      * intros [j [H1 [H2 [H3 H4]]]]. destruct j as [|j].
        -- f_equal. lia.
        -- specialize (H3 0%nat ltac:(lia)). rewrite Nat.add_0_r in H3.
           simpl in H3. lra.
Qed.

Lemma iterations_loop_exit_round g random :
  forall fuel k s n r,
    iterations_loop fuel g random k s n = Some r <->
    exists j, (j < fuel)%nat /\ r = (n + j)%nat
              /\ (forall i, (i < j)%nat -> random (k + i)%nat < s * (1 + g) ^ i)
              /\ s * (1 + g) ^ j <= random (k + j)%nat.
Proof.
  induction fuel as [|fuel IH]; intros k s n r.
  - simpl. split; [discriminate | intros [j [Hj _]]; lia].
  - simpl. destruct (Rgt_dec s (random k)) as [Hgt|Hle].
    + rewrite IH. split.
      * intros [j [H1 [H2 [H3 H4]]]]. exists (S j).
        split; [lia|]. split; [lia|]. split.
        -- intros i Hi. destruct i as [|i].
           ++ rewrite Nat.add_0_r. simpl. lra.
           ++ replace (k + S i)%nat with (S k + i)%nat by lia.
              simpl. rewrite <- Rmult_assoc. apply H3. lia.
        -- replace (k + S j)%nat with (S k + j)%nat by lia.
           simpl. rewrite <- Rmult_assoc. exact H4.
      * intros [j [H1 [H2 [H3 H4]]]]. destruct j as [|j].
        -- rewrite Nat.add_0_r in H4. simpl in H4. lra.
        -- exists j. split; [lia|]. split; [lia|]. split.
           ++ intros i Hi. specialize (H3 (S i) ltac:(lia)).
              replace (k + S i)%nat with (S k + i)%nat in H3 by lia.
              simpl in H3. rewrite <- Rmult_assoc in H3. exact H3.
           ++ replace (k + S j)%nat with (S k + j)%nat in H4 by lia.
              simpl in H4. rewrite <- Rmult_assoc in H4. exact H4.
    + split.
      * intros H. injection H as <-. exists 0%nat.
        split; [lia|]. split; [lia|]. split; [intros i Hi; lia|].
        rewrite Nat.add_0_r. simpl. lra.
      * intros [j [H1 [H2 [H3 H4]]]]. destruct j as [|j].
        -- f_equal. lia.
        -- specialize (H3 0%nat ltac:(lia)). rewrite Nat.add_0_r in H3.
           simpl in H3. lra.
Qed.

(** X2: [generateIterations] returns [n] exactly when [n] is the first round
    in which the grown sample [initialSample * (1 + growthRate)^n] exceeds
    the draw of the round. *)
Theorem generateIterations_first_exceeding g s random n :
  (exists fuel, generateIterations g s random fuel = Some n) <->
  (forall k, (k < n)%nat -> s * (1 + g) ^ k <= random k)
  /\ random n < s * (1 + g) ^ n.
Proof.
  unfold generateIterations. split.
  - intros [fuel H]. apply generateIterations_loop_exit_round in H.
    destruct H as [j [_ [-> [H3 H4]]]]. simpl in *. split; assumption.
  - intros [H1 H2]. exists (S n).
    apply generateIterations_loop_exit_round. exists n.
    split; [lia|]. split; [reflexivity|]. split; assumption.
Qed.

(** X3: [iterations] returns [n] exactly when [n] is the first round in which
    the draw is not below the grown sample
    [initialSample * (1 + growthRate)^n]. *)
Theorem iterations_first_not_exceeding s g random n :
  (exists fuel, iterations s g random fuel = Some n) <->
  (forall k, (k < n)%nat -> random k < s * (1 + g) ^ k)
  /\ s * (1 + g) ^ n <= random n.
Proof.
  unfold iterations. split.
  - intros [fuel H]. apply iterations_loop_exit_round in H.
    destruct H as [j [_ [-> [H3 H4]]]]. simpl in *. split; assumption.
  - intros [H1 H2]. exists (S n).
    apply iterations_loop_exit_round. exists n.
    split; [lia|]. split; [reflexivity|]. split; assumption.
Qed.

(** In exact arithmetic, with draws in [0,1), [iterations] either returns a
    count below
    [ceil(log(1/initialSample)/log(1+growthRate))] or never returns: once it
    has survived that many rounds the sample has reached 1 and every later
    draw is below it. *)
Theorem iterations_bounded_or_endless s g random :
  0 < g -> 0 < s < 1 ->
  (forall k, 0 <= random k < 1) ->
  let N := Z.to_nat (Math_ceil (Math_log (1 / s) / Math_log (1 + g))) in
  (forall fuel n, iterations s g random fuel = Some n -> (n < N)%nat)
  /\ ((forall k, (k < N)%nat -> random k < s * (1 + g) ^ k) ->
      forall fuel, iterations s g random fuel = None).
Proof.
  intros Hg Hs Hrand N.
  pose proof (growth_reaches_one g s Hg Hs) as HN. cbv zeta in HN. fold N in HN.
  assert (Hgrow : forall k, (N <= k)%nat -> 1 <= s * (1 + g) ^ k).
  { intros k Hk.
    assert ((1 + g) ^ N <= (1 + g) ^ k) by (apply Rle_pow; [lra | exact Hk]).
    assert (s * (1 + g) ^ N <= s * (1 + g) ^ k)
      by (apply Rmult_le_compat_l; lra).
    lra. }
  split.
  - intros fuel n H.
    apply iterations_loop_exit_round in H.
    destruct H as [j [_ [-> [_ H2]]]]. simpl in *.
    destruct (Nat.lt_ge_cases j N) as [Hlt|Hge]; [exact Hlt|].
    specialize (Hgrow j Hge). specialize (Hrand j). lra.
  - intros Hsurv fuel.
    destruct (iterations s g random fuel) as [n|] eqn:H; [|reflexivity].
    unfold iterations in H. apply iterations_loop_exit_round in H.
    destruct H as [j [_ [-> [_ H2]]]]. simpl in *.
    destruct (Nat.lt_ge_cases j N) as [Hlt|Hge].
    + specialize (Hsurv j Hlt). lra.
    + specialize (Hgrow j Hge). specialize (Hrand j). lra.
Qed.

End ExitRound.

(** ** More on the samplers of the demonstration *)
Section SamplersMore.

Import Attachment.

(** [Math.floor x = z] exactly when [z <= x < z + 1]. *)
Lemma Math_floor_eq (x : R) (z : Z) :
  Math_floor x = z <-> IZR z <= x < IZR z + 1.
Proof.
  unfold Math_floor. split.
  - intros <-. destruct (base_Int_part x) as [H1 H2]. lra.
  - intros [H1 H2]. symmetry. apply Int_part_spec. lra.
Qed.

(** X5: when the counts sum to 0 (the all-zero array), the sampler is
    uniform: each index of a non-empty array is selected on a set of draws
    of measure [1 / counts.length]. *)
Theorem samplePreferentialAttachment_uniform_on_zero counts j :
  sum counts = 0 ->
  (j < length counts)%nat ->
  has_measure
    (fun u => 0 <= u < 1 /\ samplePreferentialAttachment counts u = Z.of_nat j)
    (1 / INR (length counts)).
Proof.
  intros Hz Hj.
  set (n := INR (length counts)).
  assert (Hn : 0 < n) by (apply lt_0_INR; lia).
  assert (Hjn : INR j + 1 <= n).
  { unfold n. rewrite <- S_INR. apply le_INR. lia. }
  assert (Hj0 : 0 <= INR j) by apply pos_INR.
  assert (Hd : forall c, c / n * n = c) by (intros c; field; lra).
  assert (Hsel : forall u,
            samplePreferentialAttachment counts u = Z.of_nat j
            <-> INR j <= u * n < INR j + 1).
  { intros u. unfold samplePreferentialAttachment.
    destruct (Req_dec_T (sum counts) 0) as [_|Hnz]; [|contradiction].
    rewrite Math_floor_eq, <- INR_IZR_INZ. fold n. tauto. }
  exists (INR j / n), ((INR j + 1) / n).
  split; [|split; [|split]].
  - apply (Rmult_le_reg_r n); [exact Hn | rewrite !Hd; lra].
  - field. lra.
  - intros x [Hx1 Hx2].
    assert (H1 : INR j < x * n).
    { rewrite <- (Hd (INR j)). apply Rmult_lt_compat_r; lra. }
    assert (H2 : x * n < INR j + 1).
    { rewrite <- (Hd (INR j + 1)). apply Rmult_lt_compat_r; lra. }
    split; [|apply Hsel; lra].
    split; [nra|].
    apply (Rmult_lt_reg_r n); [exact Hn | lra].
  - intros x [_ Hx]. apply Hsel in Hx. split.
    + apply (Rmult_le_reg_r n); [exact Hn | rewrite Hd; lra].
    + apply (Rmult_le_reg_r n); [exact Hn | rewrite Hd; lra].
Qed.

Lemma samplePreferentialAttachment_uniform_on_zero_witness :
  has_measure
    (fun u => 0 <= u < 1
              /\ samplePreferentialAttachment [0; 0; 0; 0] u = Z.of_nat 2)
    (1 / INR (length [0; 0; 0; 0])).
Proof.
  apply (samplePreferentialAttachment_uniform_on_zero [0; 0; 0; 0] 2).
  - unfold sum. simpl. lra.
  - simpl. lia.
Defined.

(** On counts of positive sum the sampler with normalised weights is the
    sampler on the scaled draw. *)
Lemma weighted_sampler_scaled counts u :
  0 < sum counts ->
  samplePreferentialAttachmentWithWeights counts u =
  samplePreferentialAttachment counts u.
Proof.
  intros HS.
  unfold samplePreferentialAttachment, samplePreferentialAttachmentWithWeights.
  destruct (Req_dec_T (sum counts) 0) as [Hz|_]; [lra|].
  rewrite (loops_agree u (sum counts) HS).
  replace (0 / sum counts) with 0 by (field; lra). reflexivity.
Qed.

(** X6: on non-negative counts of positive sum
    [samplePreferentialAttachmentWithWeights] answers an index of the array,
    and index [j] is selected on a set of draws of measure
    [counts[j] / sum]. *)
Theorem samplePreferentialAttachmentWithWeights_proportional counts :
  (forall c, In c counts -> 0 <= c) ->
  0 < sum counts ->
  (forall u, 0 <= u < 1 ->
     (0 <= samplePreferentialAttachmentWithWeights counts u
      < Z.of_nat (length counts))%Z)
  /\ (forall j, (j < length counts)%nat ->
        has_measure
          (fun u => 0 <= u < 1
                    /\ samplePreferentialAttachmentWithWeights counts u
                       = Z.of_nat j)
          (nth j counts 0 / sum counts)).
Proof.
  intros Hpos HS. split.
  - intros u Hu. rewrite (weighted_sampler_scaled counts u HS).
    destruct (samplePreferentialAttachment_crossing counts u Hpos HS Hu)
      as [j [H1 [H2 _]]].
    rewrite H1. lia.
  - intros j Hj. apply crossing_has_measure; [exact Hpos | exact HS |].
    intros u Hu. rewrite (weighted_sampler_scaled counts u HS).
    destruct (samplePreferentialAttachment_crossing counts u Hpos HS Hu)
      as [j' [H1 [H2 H3]]].
    split.
    + intros H. rewrite H1 in H. apply Nat2Z.inj in H. subst j'. exact H3.
    + intros H. rewrite H1. f_equal.
      apply (least_crossing_unique counts (u * sum counts)); assumption.
Qed.

Lemma samplePreferentialAttachmentWithWeights_proportional_witness :
  has_measure
    (fun u => 0 <= u < 1
              /\ samplePreferentialAttachmentWithWeights [1; 3] u
                 = Z.of_nat 1)
    (nth 1 [1; 3] 0 / sum [1; 3]).
Proof.
  apply (samplePreferentialAttachmentWithWeights_proportional [1; 3]).
  - intros c Hc. simpl in Hc. lra.
  - unfold sum. simpl. lra.
  - simpl. lia.
Defined.





End SamplersMore.

(** ** The simulation without initial weights *)
Section FirstPickTakesAll.

Import Attachment.

Lemma sum_zeros n : sum (repeat 0 n) = 0.
Proof. rewrite sum_repeat. lra. Qed.

Lemma single_count_zero n j :
  (j < n)%nat -> single_count n j 0 = repeat 0 n.
Proof.
  intros Hj. unfold single_count.
  change (0 :: repeat 0 (n - j - 1)) with (repeat 0 (S (n - j - 1))).
  rewrite <- repeat_app. f_equal. lia.
Qed.

Lemma single_count_length n j k :
  (j < n)%nat -> length (single_count n j k) = n.
Proof.
  intros Hj. unfold single_count.
  rewrite length_app. simpl. rewrite !repeat_length. lia.
Qed.

Lemma increment_at_single_count n j k :
  increment_at (single_count n j k) j = Some (single_count n j (k + 1)).
Proof.
  unfold single_count. induction j as [|j IH]; simpl.
  - reflexivity.
  - replace (n - S j - 1)%nat with (n - 1 - j - 1)%nat by lia.
    replace (n - S j - 1)%nat with (n - 1 - j - 1)%nat in IH by lia.
    assert (H : forall m, increment_at (repeat 0 j ++ k :: repeat 0 m) j
                          = Some (repeat 0 j ++ (k + 1) :: repeat 0 m)).
    { intros m. clear IH. induction j as [|j IHj]; simpl;
        [reflexivity | rewrite IHj; reflexivity]. }
    rewrite H. reflexivity.
Qed.

Lemma sum_firstn_zeros j i : sum (firstn i (repeat 0 j)) = 0.
Proof.
  revert i. induction j as [|j IH]; intros i.
  - rewrite firstn_nil. apply sum_nil.
  - destruct i as [|i]; simpl; [apply sum_nil|].
    rewrite sum_cons, IH. lra.
Qed.

Lemma cumulative_single_count_low n j k i :
  (i <= j)%nat -> cumulative (single_count n j k) i = 0.
Proof.
  intros Hi. unfold cumulative, single_count.
  rewrite firstn_app, repeat_length.
  replace (i - j)%nat with 0%nat by lia. simpl. rewrite app_nil_r.
  apply sum_firstn_zeros.
Qed.

Lemma cumulative_single_count_at n j k :
  cumulative (single_count n j k) (j + 1) = k.
Proof.
  unfold cumulative, single_count.
  rewrite firstn_app, repeat_length.
  replace (j + 1 - j)%nat with 1%nat by lia. simpl.
  rewrite firstn_all2 by (rewrite repeat_length; lia).
  rewrite sum_app, sum_zeros, sum_cons, sum_nil. lra.
Qed.

Lemma sum_single_count n j k : sum (single_count n j k) = k.
Proof.
  unfold single_count. rewrite sum_app, sum_cons, !sum_zeros. lra.
Qed.

(** Once a single entry is positive, a positive draw selects it again. *)
Lemma sample_single_count n j k u :
  (j < n)%nat -> 0 < k -> 0 < u < 1 ->
  samplePreferentialAttachment (single_count n j k) u = Z.of_nat j.
Proof.
  intros Hj Hk Hu.
  assert (Hpos : forall c, In c (single_count n j k) -> 0 <= c).
  { intros c Hc. unfold single_count in Hc. apply in_app_or in Hc.
    destruct Hc as [Hc|[Hc|Hc]].
    - apply repeat_spec in Hc. lra.
    - lra.
    - apply repeat_spec in Hc. lra. }
  assert (HS : 0 < sum (single_count n j k))
    by (rewrite sum_single_count; exact Hk).
  destruct (samplePreferentialAttachment_crossing (single_count n j k) u
              Hpos HS) as [j' [H1 [_ H3]]]; [lra|].
  rewrite H1. f_equal.
  apply (least_crossing_unique _ _ _ _ H3).
  rewrite sum_single_count. split.
  - rewrite cumulative_single_count_at. nra.
  - intros i Hi. rewrite cumulative_single_count_low by lia. nra.
Qed.

Lemma preferentialAttachment_loop_single_count n j random :
  (j < n)%nat ->
  (forall k, 0 < random k < 1) ->
  forall iterations i m,
    (1 <= m)%nat ->
    preferentialAttachment_loop iterations random i (single_count n j (INR m))
    = Some (single_count n j (INR (m + iterations))).
Proof.
  intros Hj Hrand. induction iterations as [|iterations IH]; intros i m Hm.
  - simpl. rewrite Nat.add_0_r. reflexivity.
  - cbn [preferentialAttachment_loop].
    rewrite sample_single_count;
      [|exact Hj | apply lt_0_INR; lia | apply Hrand].
    unfold increment.
    destruct (Z.ltb_spec (Z.of_nat j) 0) as [Hneg|_]; [lia|].
    rewrite Nat2Z.id, increment_at_single_count, <- S_INR.
    rewrite (IH (S i) (S m)) by lia.
    do 3 f_equal. lia.
Qed.

(** X8: without initial weights the first pick takes all: when no draw is
    exactly 0, every sample of [preferentialAttachment] lands on the index
    [Math.floor(u0 * arraySize)] chosen by the first draw [u0], and the
    other counts stay 0. *)
Theorem preferentialAttachment_first_pick_takes_all arraySize iterations random :
  (1 <= arraySize)%nat ->
  (1 <= iterations)%nat ->
  (forall k, 0 < random k < 1) ->
  let j := Z.to_nat (Math_floor (random 0%nat * INR arraySize)) in
  (j < arraySize)%nat
  /\ preferentialAttachment arraySize iterations random
     = Some (single_count arraySize j (INR iterations)).
Proof.
  intros Hsize Hit Hrand j.
  assert (Hfirst : samplePreferentialAttachment (repeat 0 arraySize)
                     (random 0%nat)
                   = Math_floor (random 0%nat * INR arraySize)).
  { unfold samplePreferentialAttachment. rewrite sum_zeros, repeat_length.
    destruct (Req_dec_T 0 0) as [_|H]; [reflexivity | congruence]. }
  assert (Hrange : (0 <= Math_floor (random 0%nat * INR arraySize)
                    < Z.of_nat arraySize)%Z).
  { apply Math_floor_range. rewrite <- INR_IZR_INZ.
    assert (1 <= INR arraySize).
    { change 1 with (INR 1). apply le_INR. exact Hsize. }
    specialize (Hrand 0%nat). nra. }
  assert (Hj : (j < arraySize)%nat) by (unfold j; lia).
  split; [exact Hj|].
  unfold preferentialAttachment.
  destruct iterations as [|iterations]; [lia|].
  cbn [preferentialAttachment_loop]. rewrite Hfirst. unfold increment.
  destruct (Z.ltb_spec (Math_floor (random 0%nat * INR arraySize)) 0)
    as [Hneg|_]; [lia|].
  fold j. rewrite <- (single_count_zero arraySize j Hj).
  rewrite increment_at_single_count.
  replace (0 + 1) with (INR 1) by (simpl; lra).
  rewrite (preferentialAttachment_loop_single_count arraySize j random Hj
             Hrand iterations 1%nat 1%nat) by lia.
  reflexivity.
Qed.

Lemma preferentialAttachment_first_pick_takes_all_witness :
  let j := Z.to_nat (Math_floor (1 / 2 * INR 4)) in
  (j < 4)%nat
  /\ preferentialAttachment 4 10 (fun _ => 1 / 2)
     = Some (single_count 4 j (INR 10)).
Proof.
  apply (preferentialAttachment_first_pick_takes_all 4 10 (fun _ => 1 / 2)).
  - lia.
  - lia.
  - intros _. lra.
Defined.

End FirstPickTakesAll.

(** ** More on the Gini coefficient *)
Section GiniMore.

Import Attachment.

Lemma calculateGini_unfold values :
  sum (sort_ascending values) <> 0 ->
  calculateGini values
  = weighted_sum (1 - INR (length values)) (sort_ascending values)
    / (INR (length values) * sum (sort_ascending values)).
Proof.
  intros Hnz. unfold calculateGini.
  destruct (Req_dec_T (sum (sort_ascending values)) 0) as [Hz|_];
    [contradiction|].
  rewrite gini_loop_weighted_sum. f_equal. simpl. rewrite Rplus_0_l.
  f_equal. lra.
Qed.

Lemma insert_ascending_perm x l : Permutation (insert_ascending x l) (x :: l).
Proof.
  induction l as [|y l IH]; simpl; [apply Permutation_refl|].
  destruct (Rle_dec x y); [apply Permutation_refl|].
  apply Permutation_trans with (y :: x :: l);
    [apply perm_skip; exact IH | apply perm_swap].
Qed.

Lemma sort_ascending_perm l : Permutation (sort_ascending l) l.
Proof.
  induction l as [|x l IH]; simpl; [apply Permutation_refl|].
  apply Permutation_trans with (x :: sort_ascending l);
    [apply insert_ascending_perm | apply perm_skip; exact IH].
Qed.

(** Two ascending arrays with the same entries are the same array. *)
Lemma sorted_perm_unique :
  forall l1 l2,
    StronglySorted Rle l1 -> StronglySorted Rle l2 ->
    Permutation l1 l2 -> l1 = l2.
Proof.
  induction l1 as [|a l1 IH]; intros l2 H1 H2 Hp.
  - apply Permutation_nil in Hp. congruence.
  - destruct l2 as [|b l2].
    + apply Permutation_sym, Permutation_nil in Hp. discriminate.
    + inversion H1 as [|a' l1' Hs1 Ha]; subst.
      inversion H2 as [|b' l2' Hs2 Hb]; subst.
      rewrite Forall_forall in Ha, Hb.
      assert (Hab : a = b).
      { assert (Hin_b : In b (a :: l1)).
        { apply (Permutation_in b (Permutation_sym Hp)). left. reflexivity. }
        assert (Hin_a : In a (b :: l2)).
        { apply (Permutation_in a Hp). left. reflexivity. }
        destruct Hin_b as [->|Hin_b]; [reflexivity|].
        destruct Hin_a as [->|Hin_a]; [reflexivity|].
        specialize (Ha b Hin_b). specialize (Hb a Hin_a). lra. }
      subst b. f_equal. apply IH; [exact Hs1 | exact Hs2 |].
      apply (Permutation_cons_inv Hp).
Qed.

Lemma sort_ascending_of_perm l1 l2 :
  Permutation l1 l2 -> sort_ascending l1 = sort_ascending l2.
Proof.
  intros Hp. apply sorted_perm_unique; try apply sort_ascending_sorted.
  apply Permutation_trans with l1; [apply sort_ascending_perm|].
  apply Permutation_trans with l2;
    [exact Hp | apply Permutation_sym, sort_ascending_perm].
Qed.

(** X9: [calculateGini] depends on the entries only, not on their order. *)
Theorem calculateGini_order_independent values values' :
  Permutation values values' ->
  calculateGini values = calculateGini values'.
Proof.
  intros Hp. unfold calculateGini.
  rewrite (sort_ascending_of_perm values values' Hp).
  rewrite (Permutation_length Hp). reflexivity.
Qed.

Lemma calculateGini_order_independent_witness :
  calculateGini [3; 1; 2] = calculateGini [1; 3; 2].
Proof.
  apply (calculateGini_order_independent [3; 1; 2] [1; 3; 2]).
  apply perm_swap.
Defined.

(** In exact arithmetic [calculateGini] is at most [1 - 1/n] on a non-empty
    array of [n] non-negative numbers. *)
Theorem calculateGini_below_one values :
  values <> [] ->
  (forall v, In v values -> 0 <= v) ->
  calculateGini values <= 1 - 1 / INR (length values).
Proof.
  intros Hne Hpos.
  set (n := INR (length values)).
  assert (Hn : 1 <= n).
  { unfold n. destruct values; [congruence|].
    change (length (r :: values)) with (S (length values)).
    rewrite S_INR. pose proof (pos_INR (length values)). lra. }
  assert (Hin : 0 < / n) by (apply Rinv_0_lt_compat; lra).
  assert (Hin1 : / n <= 1).
  { rewrite <- Rinv_1. apply Rinv_le_contravar; lra. }
  assert (Hspos : forall v, In v (sort_ascending values) -> 0 <= v).
  { intros v Hv. apply Hpos. exact (proj1 (sort_ascending_In _ _) Hv). }
  destruct (Req_dec_T (sum (sort_ascending values)) 0) as [Hz|Hnz].
  - unfold calculateGini.
    destruct (Req_dec_T (sum (sort_ascending values)) 0) as [_|H];
      [|contradiction].
    unfold Rdiv. fold n. lra.
  - rewrite (calculateGini_unfold values Hnz). fold n.
    pose proof (sum_nonneg _ Hspos) as HS.
    set (S := sum (sort_ascending values)) in *.
    assert (HN : weighted_sum (1 - n) (sort_ascending values) <= (n - 1) * S).
    { apply weighted_sum_upper; [exact Hspos | | lra].
      rewrite sort_ascending_length. fold n. lra. }
    assert (Hd : 0 < n * S) by nra.
    apply (Rmult_le_reg_r (n * S)); [exact Hd|].
    unfold Rdiv at 1. rewrite Rmult_assoc, Rinv_l by lra.
    replace ((1 - 1 / n) * (n * S)) with ((n - 1) * S) by (field; lra).
    lra.
Qed.

Lemma insert_ascending_scale k x l :
  0 < k ->
  insert_ascending (k * x) (map (Rmult k) l)
  = map (Rmult k) (insert_ascending x l).
Proof.
  intros Hk. induction l as [|y l IH]; simpl; [reflexivity|].
  destruct (Rle_dec (k * x) (k * y)) as [H1|H1];
    destruct (Rle_dec x y) as [H2|H2]; simpl.
  - reflexivity.
  - exfalso. apply H2. apply (Rmult_le_reg_l k); assumption.
  - exfalso. apply H1. apply Rmult_le_compat_l; lra.
  - rewrite IH. reflexivity.
Qed.

Lemma sort_ascending_scale k l :
  0 < k -> sort_ascending (map (Rmult k) l) = map (Rmult k) (sort_ascending l).
Proof.
  intros Hk. induction l as [|x l IH]; simpl; [reflexivity|].
  rewrite IH. apply insert_ascending_scale. exact Hk.
Qed.

Lemma sum_scale k l : sum (map (Rmult k) l) = k * sum l.
Proof.
  induction l as [|x l IH]; simpl.
  - rewrite sum_nil. lra.
  - rewrite !sum_cons, IH. lra.
Qed.

Lemma weighted_sum_scale k :
  forall l c, weighted_sum c (map (Rmult k) l) = k * weighted_sum c l.
Proof.
  induction l as [|x l IH]; intros c; simpl; [lra|].
  rewrite IH. lra.
Qed.

(** In exact arithmetic [calculateGini] does not change when every entry is
    multiplied by the same positive factor. *)
Theorem calculateGini_scale_invariant k values :
  0 < k ->
  calculateGini (map (Rmult k) values) = calculateGini values.
Proof.
  intros Hk.
  destruct (Req_dec_T (sum (sort_ascending values)) 0) as [Hz|Hnz].
  - unfold calculateGini.
    rewrite (sort_ascending_scale k values Hk), sum_scale, Hz, Rmult_0_r.
    destruct (Req_dec_T 0 0) as [_|H]; [reflexivity | congruence].
  - assert (Hnz' : sum (sort_ascending (map (Rmult k) values)) <> 0).
    { rewrite (sort_ascending_scale k values Hk), sum_scale. nra. }
    rewrite (calculateGini_unfold _ Hnz'), (calculateGini_unfold _ Hnz).
    rewrite (sort_ascending_scale k values Hk), sum_scale,
      weighted_sum_scale, length_map.
    destruct (Req_dec_T (INR (length values)) 0) as [H0|H0].
    + rewrite H0. unfold Rdiv. rewrite !Rmult_0_l, Rinv_0. lra.
    + field. repeat split; lra.
Qed.

Lemma weighted_sum_zeros m : forall c, weighted_sum c (repeat 0 m) = 0.
Proof.
  induction m as [|m IH]; intros c; simpl; [reflexivity|].
  rewrite IH. lra.
Qed.

Lemma weighted_sum_app :
  forall l1 l2 c,
    weighted_sum c (l1 ++ l2)
    = weighted_sum c l1 + weighted_sum (c + 2 * INR (length l1)) l2.
Proof.
  induction l1 as [|x l1 IH]; intros l2 c.
  - simpl. rewrite Rmult_0_r, Rplus_0_r. lra.
  - change (length (x :: l1)) with (S (length l1)). rewrite S_INR.
    simpl. rewrite IH.
    replace (c + 2 + 2 * INR (length l1))
      with (c + 2 * (INR (length l1) + 1)) by lra.
    lra.
Qed.

Lemma zeros_then_one_sorted m x :
  0 <= x -> StronglySorted Rle (repeat 0 m ++ [x]).
Proof.
  intros Hx. induction m as [|m IH]; simpl.
  - constructor; constructor.
  - constructor; [exact IH|]. apply Forall_forall. intros y Hy.
    apply in_app_or in Hy. destruct Hy as [Hy|[<-|[]]].
    + apply repeat_spec in Hy. lra.
    + exact Hx.
Qed.

(** In exact arithmetic, when one entry holds everything, that is one
    positive entry and [m] zeros in any order, [calculateGini] is
    [m / (m + 1)]. *)
Theorem calculateGini_one_holds_all values x m :
  0 < x ->
  Permutation values (x :: repeat 0 m) ->
  calculateGini values = INR m / INR (S m).
Proof.
  intros Hx Hp.
  assert (Hp' : Permutation values (repeat 0 m ++ [x])).
  { apply Permutation_trans with (x :: repeat 0 m); [exact Hp|].
    apply Permutation_cons_append. }
  assert (Hsort : sort_ascending values = repeat 0 m ++ [x]).
  { apply sorted_perm_unique.
    - apply sort_ascending_sorted.
    - apply zeros_then_one_sorted. lra.
    - apply Permutation_trans with values;
        [apply sort_ascending_perm | exact Hp']. }
  assert (Hlen : length values = S m).
  { rewrite (Permutation_length Hp). simpl. rewrite repeat_length.
    reflexivity. }
  assert (HS : sum (sort_ascending values) = x).
  { rewrite Hsort, sum_app, sum_zeros, sum_cons, sum_nil. lra. }
  rewrite calculateGini_unfold by (rewrite HS; lra).
  rewrite HS, Hsort, Hlen, weighted_sum_app, weighted_sum_zeros,
    repeat_length.
  cbn [weighted_sum]. rewrite !S_INR.
  pose proof (pos_INR m). field. split; lra.
Qed.

End GiniMore.

(** ** The power-law generator as a whole *)
Section Generator.

Import PowerLaw.

(** When the draw does not exceed the total weight the loop increments one
    entry: the length stays, the sum grows by 1, and any property of the
    entries that adding 1 keeps is kept. *)
Lemma increment_loop_adds_one (P : R -> Prop) r :
  (forall v, P v -> P (v + 1)) ->
  forall weights values acc,
    length weights = length values ->
    weights <> [] ->
    r <= acc + sum weights ->
    Forall P values ->
    length (increment_loop r acc weights values) = length values
    /\ sum (increment_loop r acc weights values) = sum values + 1
    /\ Forall P (increment_loop r acc weights values).
Proof.
  intros HP. induction weights as [|w weights IH];
    intros values acc Hlen Hne Hr Hall; [congruence|].
  destruct values as [|v values]; [discriminate|].
  inversion Hall as [|v' values' Hv Hvs]; subst.
  simpl. destruct (Rle_dec r (acc + w)) as [Hle|Hgt].
  - simpl. rewrite !sum_cons. repeat split; [lra|].
    constructor; [apply HP; exact Hv | exact Hvs].
  - rewrite sum_cons in Hr. simpl in Hlen.
    destruct (IH values (acc + w)) as [H1 [H2 H3]].
    + lia.
    + intros ->. rewrite sum_nil in Hr. lra.
    + lra.
    + exact Hvs.
    + simpl. rewrite !sum_cons, H1, H2. repeat split; [lra|].
      constructor; assumption.
Qed.

(** A growth step on a non-empty array of positive values adds 1 to the
    difference between the sum and the length, and adds at most one
    entry. *)
Lemma preferentialAttachmentStep_adds_one values alpha p u1 u2 :
  values <> [] ->
  Forall (fun v => exists n : nat, v = INR (S n)) values ->
  0 <= u1 < 1 ->
  let values' := preferentialAttachmentStep values alpha p u1 u2 in
  Forall (fun v => exists n : nat, v = INR (S n)) values'
  /\ sum values' - INR (length values') = sum values - INR (length values) + 1
  /\ length values' = (length values + if Rlt_dec u2 p then 1 else 0)%nat.
Proof.
  intros Hne Hall Hu. cbv zeta. unfold preferentialAttachmentStep.
  set (weights := map (fun v => Math_pow v (1 / (alpha - 1))) values).
  assert (Hw : forall c, In c weights -> 0 < c).
  { intros c Hc. apply in_map_iff in Hc. destruct Hc as [v [<- _]].
    apply exp_pos. }
  assert (Hwne : weights <> []).
  { unfold weights. destruct values; [congruence | discriminate]. }
  pose proof (sum_pos weights Hwne Hw) as HW.
  destruct (increment_loop_adds_one (fun v => exists n : nat, v = INR (S n))
              (u1 * sum weights)) with (weights := weights)
              (values := values) (acc := 0) as [H1 [H2 H3]].
  { intros v [n ->]. exists (S n). rewrite (S_INR (S n)). reflexivity. }
  { apply length_map. }
  { exact Hwne. }
  { nra. }
  { exact Hall. }
  destruct (Rlt_dec u2 p).
  - rewrite length_app, sum_app, H1, H2. simpl length.
    rewrite sum_cons, sum_nil, plus_INR. simpl INR.
    split; [|split; [lra | reflexivity]].
    apply Forall_app. split; [exact H3|].
    constructor; [|constructor]. exists 0%nat. reflexivity.
  - rewrite H1, H2, Nat.add_0_r. split; [exact H3|]. split; [lra | reflexivity].
Qed.

Lemma growth_loop_spec alpha p random :
  (forall k, 0 <= random k < 1) ->
  forall steps k values,
    values <> [] ->
    Forall (fun v => exists n : nat, v = INR (S n)) values ->
    let values' := growth_loop steps alpha p random k values in
    Forall (fun v => exists n : nat, v = INR (S n)) values'
    /\ sum values' - INR (length values')
       = sum values - INR (length values) + INR steps
    /\ (length values <= length values' <= length values + steps)%nat
    /\ (p <= 0 -> length values' = length values)
    /\ (1 <= p -> length values' = (length values + steps)%nat).
Proof.
  intros Hrand. induction steps as [|steps IH]; intros k values Hne Hall.
  - simpl. split; [exact Hall|]. split; [lra|]. split; [lia|].
    split; intros _; lia.
  - cbn [growth_loop].
    destruct (preferentialAttachmentStep_adds_one values alpha p (random k)
                (random (S k)) Hne Hall (Hrand k)) as [H1 [H2 H3]].
    set (values1 := preferentialAttachmentStep values alpha p (random k)
                      (random (S k))) in *.
    assert (Hne1 : values1 <> []).
    { intros Heq. rewrite Heq in H3. simpl in H3.
      destruct values; [congruence | simpl in H3; lia]. }
    destruct (IH (S (S k)) values1 Hne1 H1) as [G1 [G2 [G3 [G4 G5]]]].
    cbv zeta in *. rewrite S_INR.
    split; [exact G1|]. split; [lra|].
    pose proof (Hrand (S k)) as Hu2.
    destruct (Rlt_dec (random (S k)) p) as [Hlt|Hge].
    + split; [lia|]. split.
      * intros Hp. lra.
      * intros Hp. rewrite (G5 Hp). lia.
    + split; [lia|]. split.
      * intros Hp. rewrite (G4 Hp). lia.
      * intros Hp. lra.
Qed.

(** X13: for [xMin >= 1], [alpha] different from 1 and draws strictly
    between 0 and 1,
    [generatePowerLawPreferential] returns an array of natural numbers, all
    at least 1, in which the sum minus the number of entries is [steps] (each
    step adds 1 to one entry, a new entry enters with 1); it starts with
    [Math.floor(xMin)] entries and gains at most one per step. *)
Theorem generatePowerLawPreferential_counts alpha xMin steps p random :
  1 <= xMin ->
  alpha <> 1 ->
  (forall k, 0 < random k < 1) ->
  exists values,
    generatePowerLawPreferential alpha xMin steps p random = Some values
    /\ Forall (fun v => exists n : nat, v = INR (S n)) values
    /\ sum values - INR (length values) = INR steps
    /\ (Z.to_nat (Math_floor xMin) <= length values
        <= Z.to_nat (Math_floor xMin) + steps)%nat.
Proof.
  intros Hx _ Hpos.
  assert (Hrand : forall k, 0 <= random k < 1).
  { intros k. specialize (Hpos k). lra. }
  unfold generatePowerLawPreferential.
  assert (Hfl : (1 <= Math_floor xMin)%Z).
  { unfold Math_floor. destruct (base_Int_part xMin) as [H1 H2].
    apply Z.lt_succ_r. apply lt_IZR. rewrite succ_IZR.
    change (IZR 1) with 1. lra. }
  destruct (Z.ltb_spec (Math_floor xMin) 0) as [Hneg|_]; [lia|].
  set (n := Z.to_nat (Math_floor xMin)).
  assert (Hn : (1 <= n)%nat) by (unfold n; lia).
  destruct (growth_loop_spec alpha p random Hrand steps 0%nat (repeat 1 n))
    as [H1 [H2 [H3 _]]].
  - destruct n; [lia | discriminate].
  - apply Forall_forall. intros v Hv. apply repeat_spec in Hv.
    exists 0%nat. exact Hv.
  - cbv zeta in *. rewrite repeat_length in *. rewrite sum_repeat in H2.
    eexists. split; [reflexivity|]. split; [exact H1|].
    split; [lra | exact H3].
Qed.

Lemma generatePowerLawPreferential_counts_witness :
  exists values,
    generatePowerLawPreferential (5 / 2) 1 3 (1 / 10) (fun _ => 1 / 2)
    = Some values
    /\ Forall (fun v => exists n : nat, v = INR (S n)) values
    /\ sum values - INR (length values) = INR 3
    /\ (Z.to_nat (Math_floor 1) <= length values
        <= Z.to_nat (Math_floor 1) + 3)%nat.
Proof.
  apply (generatePowerLawPreferential_counts (5 / 2) 1 3 (1 / 10)
           (fun _ => 1 / 2)).
  - lra.
  - lra.
  - intros _. lra.
Defined.

(** X14: the two ends of [newElementProbability], for [xMin >= 1] and draws
    in [0,1): at 0 or below no entry is ever added and the array keeps its
    [Math.floor(xMin)] entries; at 1 or above every step adds one. *)
Theorem generatePowerLawPreferential_growth_ends alpha xMin steps p random :
  1 <= xMin ->
  alpha <> 1 ->
  (forall k, 0 <= random k < 1) ->
  exists values,
    generatePowerLawPreferential alpha xMin steps p random = Some values
    /\ (p <= 0 -> length values = Z.to_nat (Math_floor xMin))
    /\ (1 <= p -> length values = (Z.to_nat (Math_floor xMin) + steps)%nat).
Proof.
  intros Hx _ Hrand. unfold generatePowerLawPreferential.
  assert (Hfl : (1 <= Math_floor xMin)%Z).
  { unfold Math_floor. destruct (base_Int_part xMin) as [H1 H2].
    apply Z.lt_succ_r. apply lt_IZR. rewrite succ_IZR.
    change (IZR 1) with 1. lra. }
  destruct (Z.ltb_spec (Math_floor xMin) 0) as [Hneg|_]; [lia|].
  set (n := Z.to_nat (Math_floor xMin)).
  assert (Hn : (1 <= n)%nat) by (unfold n; lia).
  destruct (growth_loop_spec alpha p random Hrand steps 0%nat (repeat 1 n))
    as [_ [_ [_ [H4 H5]]]].
  - destruct n; [lia | discriminate].
  - apply Forall_forall. intros v Hv. apply repeat_spec in Hv.
    exists 0%nat. exact Hv.
  - cbv zeta in *. rewrite repeat_length in *.
    eexists. split; [reflexivity|]. split; assumption.
Qed.

Lemma generatePowerLawPreferential_growth_ends_witness :
  exists values,
    generatePowerLawPreferential (5 / 2) 1 3 1 (fun _ => 1 / 2) = Some values
    /\ (1 <= 0 -> length values = Z.to_nat (Math_floor 1))
    /\ (1 <= 1 -> length values = (Z.to_nat (Math_floor 1) + 3)%nat).
Proof.
  apply (generatePowerLawPreferential_growth_ends (5 / 2) 1 3 1
           (fun _ => 1 / 2)).
  - lra.
  - lra.
  - intros _. lra.
Defined.

End Generator.

(** ** What the brace-matching counter can record *)
Section BraceBudget.

Import BraceScanner.
Local Open Scope Z_scope.

Lemma fold_left_Zadd_acc (l : list Z) (a : Z) :
  fold_left Z.add l a = a + fold_left Z.add l 0.
Proof.
  revert a. induction l as [|x l IH]; intros a; simpl; [lia|].
  rewrite (IH (a + x)), (IH x). lia.
Qed.

Lemma total_lines_push counts c :
  total_lines (counts ++ [c]) = total_lines counts + c.
Proof.
  unfold total_lines. rewrite fold_left_app. reflexivity.
Qed.

Lemma scan_line_budget lines i st :
  scan_budget i st -> scan_budget (S i) (scan_line lines i st).
Proof.
  unfold scan_budget, scan_line. intros H.
  set (line := trim (nth i lines EmptyString)).
  destruct (skipped line).
  { destruct (inFunction st); lia. }
  cbv zeta.
  set (oP := count_char "(" line). set (cP := count_char ")" line).
  set (oB := count_char "{" line). set (cB := count_char "}" line).
  assert (Hclose : forall start bc pc,
            total_lines (lineCounts st) <= start <= Z.of_nat i ->
            let st1 := mkState true start bc pc (lineCounts st) in
            let st2 :=
              if inFunction st1 then
                if ((braceCount st1 + (oB - cB) =? 0)
                    && ((0 <? oB) || (0 <? cB)))
                then
                  mkState false (functionStartLine st1)
                    (braceCount st1 + (oB - cB)) 0
                    (if 1 <? Z.of_nat i - functionStartLine st1 + 1
                     then lineCounts st1
                          ++ [Z.of_nat i - functionStartLine st1 + 1]
                     else lineCounts st1)
                else
                  mkState true (functionStartLine st1)
                    (braceCount st1 + (oB - cB)) (parenCount st1)
                    (lineCounts st1)
              else st1 in
            if inFunction st2
            then total_lines (lineCounts st2) <= functionStartLine st2
                 < Z.of_nat (S i)
            else total_lines (lineCounts st2) <= Z.of_nat (S i)).
  { intros start bc pc Hs. cbv zeta.
    cbn [inFunction functionStartLine braceCount parenCount lineCounts].
    destruct ((bc + (oB - cB) =? 0) && ((0 <? oB) || (0 <? cB))).
    - cbn [inFunction lineCounts].
      destruct (1 <? Z.of_nat i - start + 1).
      + rewrite total_lines_push. lia.
      + lia.
    - cbn [inFunction lineCounts functionStartLine]. lia. }
  destruct (inFunction st) eqn:Hf.
  - cbn [negb andb]. apply Hclose. lia.
  - cbn [negb andb].
    destruct ((0 <? oP) && (parenCount st + (oP - cP) =? 0) && (0 <? oB)).
    + apply Hclose. lia.
    + destruct ((0 <? oP) && (parenCount st + (oP - cP) =? 0)
                && includes ")" line && negb (includes ";" line)).
      * destruct ((i + 1 <? length lines)%nat
                  && startsWith "{" (trim (nth (i + 1) lines EmptyString))).
        -- apply Hclose. lia.
        -- cbn [inFunction lineCounts]. lia.
      * cbn [inFunction lineCounts]. lia.
Qed.

Lemma scan_budget_rounds lines :
  forall rounds i st,
    scan_budget i st ->
    scan_budget (i + rounds) (scan lines rounds i st).
Proof.
  induction rounds as [|rounds IH]; intros i st H.
  - rewrite Nat.add_0_r. exact H.
  - cbn [scan]. replace (i + S rounds)%nat with (S i + rounds)%nat by lia.
    apply IH. apply scan_line_budget. exact H.
Qed.

Lemma total_lines_at_least counts :
  Forall (fun c => 1 < c) counts ->
  2 * Z.of_nat (length counts) <= total_lines counts.
Proof.
  induction counts as [|c counts IH] using rev_ind; intros H.
  - unfold total_lines. simpl. lia.
  - apply Forall_app in H. destruct H as [H1 H2].
    inversion H2 as [|c' l' Hc _]; subst.
    rewrite total_lines_push, length_app. simpl length.
    specialize (IH H1). lia.
Qed.

(** X15: the functions the brace-matching counter records do not overlap:
    the recorded line counts add up to at most the number of lines of the
    file, so there are at most half as many counts as lines. *)
Theorem countFunctionLines_within_file content :
  total_lines (BraceScanner.countFunctionLines content)
  <= Z.of_nat (length (split_lines content))
  /\ 2 * Z.of_nat (length (BraceScanner.countFunctionLines content))
     <= Z.of_nat (length (split_lines content)).
Proof.
  unfold BraceScanner.countFunctionLines. cbv zeta.
  set (lines := split_lines content).
  pose proof (scan_budget_rounds lines (length lines) 0 initial) as Hb.
  assert (H0 : scan_budget 0 initial).
  { unfold scan_budget, initial, total_lines. simpl. lia. }
  specialize (Hb H0). simpl Nat.add in Hb.
  assert (Htotal : total_lines (lineCounts (scan lines (length lines) 0 initial))
                   <= Z.of_nat (length lines)).
  { unfold scan_budget in Hb.
    destruct (inFunction (scan lines (length lines) 0 initial)); lia. }
  split; [exact Htotal|].
  pose proof (scan_inv_rounds lines (length lines) 0%nat initial) as Hinv.
  destruct Hinv as [_ Hall].
  - lia.
  - split; [intros H; discriminate | constructor].
  - simpl Nat.add in Hall.
    assert (Hgt : Forall (fun c => 1 < c)
                    (lineCounts (scan lines (length lines) 0 initial))).
    { eapply Forall_impl; [|exact Hall]. intros c [Hc _]. exact Hc. }
    pose proof (total_lines_at_least _ Hgt). lia.
Qed.

Lemma count_char_nonneg c s : 0 <= count_char c s.
Proof.
  induction s as [|d s IH]; simpl; [lia|].
  destruct (d =? c)%char; lia.
Qed.

Lemma count_char_includes c s :
  0 < count_char c s -> includes c s = true.
Proof.
  induction s as [|d s IH]; simpl; [lia|].
  destruct (d =? c)%char; [reflexivity|]. simpl. intros H. apply IH. lia.
Qed.

Lemma count_char_trim_start c s :
  count_char c (trim_start s) <= count_char c s.
Proof.
  induction s as [|d s IH]; simpl; [lia|].
  destruct (is_space d).
  - destruct (d =? c)%char; lia.
  - simpl. lia.
Qed.

Lemma count_char_trim_end c s :
  count_char c (trim_end s) <= count_char c s.
Proof.
  induction s as [|d s IH]; simpl; [lia|].
  destruct (trim_end s) as [|e t] eqn:Ht.
  - simpl in IH. destruct (is_space d); simpl;
      destruct (d =? c)%char; lia.
  - cbn [count_char] in *. lia.
Qed.

Lemma count_char_trim c s : count_char c (trim s) <= count_char c s.
Proof.
  unfold trim. pose proof (count_char_trim_end c (trim_start s)).
  pose proof (count_char_trim_start c s). lia.
Qed.

Lemma count_char_split_lines c s line :
  In line (split_lines s) -> count_char c line <= count_char c s.
Proof.
  revert line. induction s as [|d s IH]; intros line Hin.
  - simpl in Hin. destruct Hin as [<-|[]]. simpl. lia.
  - simpl in Hin. cbn [count_char].
    pose proof (count_char_nonneg c s) as Hs.
    destruct (d =? "010")%char.
    + destruct Hin as [<-|Hin].
      * simpl. destruct (d =? c)%char; lia.
      * specialize (IH line Hin). destruct (d =? c)%char; lia.
    + destruct (split_lines s) as [|l ls] eqn:Hsp.
      * destruct Hin as [<-|[]]. simpl. destruct (d =? c)%char; lia.
      * destruct Hin as [<-|Hin].
        -- cbn [count_char]. specialize (IH l (or_introl eq_refl)). lia.
        -- specialize (IH line (or_intror Hin)).
           destruct (d =? c)%char; lia.
Qed.

Lemma count_char_line c content i :
  0 < count_char c (trim (nth i (split_lines content) EmptyString)) ->
  includes c content = true.
Proof.
  intros H. apply count_char_includes.
  pose proof (count_char_trim c (nth i (split_lines content) EmptyString)).
  destruct (Nat.lt_ge_cases i (length (split_lines content))) as [Hi|Hi].
  - pose proof (count_char_split_lines c content _
                  (nth_In _ EmptyString Hi)). lia.
  - rewrite nth_overflow in H by exact Hi. simpl in H. lia.
Qed.

Lemma startsWith_brace_count s :
  startsWith "{" s = true -> 0 < count_char "{" s.
Proof.
  unfold startsWith. destruct s as [|d s]; cbn [prefix]; [discriminate|].
  destruct (Ascii.ascii_dec "{" d) as [<-|Hne].
  - intros _. cbn [count_char]. rewrite Ascii.eqb_refl.
    pose proof (count_char_nonneg "{" s). lia.
  - discriminate.
Qed.

(** X16: a file without an opening parenthesis, or without an opening brace,
    gives no counts. *)
Theorem countFunctionLines_needs_paren_and_brace content :
  includes "(" content = false \/ includes "{" content = false ->
  BraceScanner.countFunctionLines content = [].
Proof.
  intros Hno.
  pose proof (scan_inv_rounds (split_lines content)
                (length (split_lines content)) 0%nat initial) as Hinv.
  destruct Hinv as [_ Hall].
  - lia.
  - split; [intros H; discriminate | constructor].
  - simpl Nat.add in Hall. unfold BraceScanner.countFunctionLines. cbv zeta.
    destruct (lineCounts (scan (split_lines content)
                            (length (split_lines content)) 0 initial))
      as [|c rest]; [reflexivity|].
    exfalso. inversion Hall as [|c' rest' Hc _]; subst.
    destruct Hc as [_ [s [j [_ [Hstart _]]]]].
    destruct Hstart as [_ [Hparen Hbrace]].
    apply count_char_line in Hparen.
    assert (Hb : includes "{" content = true).
    { destruct Hbrace as [Hb|[_ [_ [_ Hb]]]].
      - apply count_char_line in Hb. exact Hb.
      - apply startsWith_brace_count in Hb.
        apply count_char_line in Hb. exact Hb. }
    destruct Hno as [Hno|Hno]; congruence.
Qed.

Lemma countFunctionLines_needs_paren_and_brace_witness :
  BraceScanner.countFunctionLines "int x = { 1 };" = [].
Proof.
  apply (countFunctionLines_needs_paren_and_brace "int x = { 1 };").
  left. reflexivity.
Defined.

End BraceBudget.

(** ** The scanner's counter against the brace depth of the text *)
Section BraceDepth.

Import BraceScanner.
Local Open Scope Z_scope.

Lemma net_braces_processed lines i :
  processed lines i ->
  net_braces (nth i lines EmptyString)
  = count_char "{" (trim (nth i lines EmptyString))
    - count_char "}" (trim (nth i lines EmptyString)).
Proof.
  intros H. unfold net_braces. unfold processed in H. rewrite H. reflexivity.
Qed.

Lemma net_braces_skipped lines i :
  ~ processed lines i -> net_braces (nth i lines EmptyString) = 0.
Proof.
  intros H. unfold net_braces, processed in *.
  destruct (skipped (trim (nth i lines EmptyString))); [reflexivity|].
  exfalso. apply H. reflexivity.
Qed.

Lemma depth_prefix_S :
  forall (l : list string) (m : nat),
    fold_left Z.add (map net_braces (firstn (S m) l)) 0
    = fold_left Z.add (map net_braces (firstn m l)) 0
      + net_braces (nth m l EmptyString).
Proof.
  induction l as [|x l IH]; intros m.
  - rewrite !firstn_nil. destruct m; reflexivity.
  - destruct m as [|m].
    + simpl. lia.
    + change (firstn (S (S m)) (x :: l)) with (x :: firstn (S m) l).
      change (firstn (S m) (x :: l)) with (x :: firstn m l).
      cbn [map fold_left nth].
      rewrite (fold_left_Zadd_acc _ (0 + net_braces x)).
      rewrite (fold_left_Zadd_acc (map net_braces (firstn m l))
                 (0 + net_braces x)).
      rewrite IH. lia.
Qed.

Lemma brace_depth_start lines s :
  brace_depth lines s s = net_braces (nth s lines EmptyString).
Proof.
  unfold brace_depth. replace (s + 1 - s)%nat with 1%nat by lia.
  rewrite depth_prefix_S. simpl firstn. simpl.
  rewrite nth_skipn, Nat.add_0_r. reflexivity.
Qed.

Lemma brace_depth_S lines s k :
  (s <= k)%nat ->
  brace_depth lines s (S k)
  = brace_depth lines s k + net_braces (nth (S k) lines EmptyString).
Proof.
  intros Hk. unfold brace_depth.
  replace (S k + 1 - s)%nat with (S (k + 1 - s)) by lia.
  rewrite depth_prefix_S, nth_skipn.
  replace (s + (k + 1 - s))%nat with (S k) by lia. reflexivity.
Qed.

Lemma scan_app lines :
  forall a b i st,
    scan lines (a + b) i st = scan lines b (i + a) (scan lines a i st).
Proof.
  induction a as [|a IH]; intros b i st.
  - simpl. rewrite Nat.add_0_r. reflexivity.
  - cbn [Nat.add scan]. rewrite IH. f_equal. lia.
Qed.

(** Inside a function, as long as the scanner's counter does not come to 0
    on a line with a brace, the scanner stays inside, records nothing, and
    its counter follows the brace depth of the text at the distance [d] it
    had after the start line. *)
Lemma scan_inside_rounds lines s d :
  forall rounds i st,
    (s <= i)%nat ->
    inFunction st = true ->
    braceCount st = d + brace_depth lines s i ->
    (forall k, (i < k <= i + rounds)%nat ->
       ~ (d + brace_depth lines s k = 0 /\ brace_line lines k)) ->
    let st' := scan lines rounds (S i) st in
    inFunction st' = true
    /\ functionStartLine st' = functionStartLine st
    /\ lineCounts st' = lineCounts st
    /\ braceCount st' = d + brace_depth lines s (i + rounds).
Proof.
  induction rounds as [|rounds IH]; intros i st Hs Hf Hbc Hopen.
  - simpl. rewrite Nat.add_0_r. repeat split; assumption.
  - cbn [scan].
    assert (Hstep : inFunction (scan_line lines (S i) st) = true
                    /\ functionStartLine (scan_line lines (S i) st)
                       = functionStartLine st
                    /\ lineCounts (scan_line lines (S i) st) = lineCounts st
                    /\ braceCount (scan_line lines (S i) st)
                       = d + brace_depth lines s (S i)).
    { rewrite (brace_depth_S lines s i Hs).
      destruct (skipped (trim (nth (S i) lines EmptyString))) eqn:Hskip.
      - unfold scan_line. rewrite Hskip.
        rewrite net_braces_skipped
          by (unfold processed; rewrite Hskip; discriminate).
        repeat split; [exact Hf | lia].
      - assert (Hproc : processed lines (S i)) by exact Hskip.
        rewrite (scan_line_inside lines (S i) st Hf Hproc). cbv zeta.
        rewrite (net_braces_processed lines (S i) Hproc).
        set (oB := count_char "{" (trim (nth (S i) lines EmptyString))).
        set (cB := count_char "}" (trim (nth (S i) lines EmptyString))).
        destruct ((braceCount st + (oB - cB) =? 0)
                  && ((0 <? oB) || (0 <? cB))) eqn:Hc.
        + exfalso. apply (Hopen (S i)); [lia|].
          apply andb_prop in Hc. destruct Hc as [Hz Hb].
          apply Z.eqb_eq in Hz. split.
          * rewrite (brace_depth_S lines s i Hs),
              (net_braces_processed lines (S i) Hproc).
            fold oB cB. lia.
          * split; [exact Hproc|]. fold oB cB.
            apply orb_prop in Hb.
            destruct Hb as [Hb|Hb]; apply Z.ltb_lt in Hb; [left | right];
              exact Hb.
        + cbn [inFunction functionStartLine lineCounts braceCount].
          repeat split. lia. }
    destruct Hstep as [S1 [S2 [S3 S4]]].
    destruct (IH (S i) (scan_line lines (S i) st)) as [G1 [G2 [G3 G4]]].
    + lia.
    + exact S1.
    + exact S4.
    + intros k Hk. apply Hopen. lia.
    + cbv zeta. replace (i + S rounds)%nat with (S i + rounds)%nat by lia.
      repeat split; [exact G1 | congruence | congruence | exact G4].
Qed.

(** The state after a signature that has its brace on the same line. *)
Lemma scan_line_same_line_start lines s st :
  inFunction st = false ->
  processed lines s ->
  let line := trim (nth s lines EmptyString) in
  0 < count_char "(" line ->
  parenCount st + (count_char "(" line - count_char ")" line) = 0 ->
  0 < count_char "{" line ->
  0 < net_braces (nth s lines EmptyString) ->
  let st' := scan_line lines s st in
  inFunction st' = true
  /\ functionStartLine st' = Z.of_nat s
  /\ lineCounts st' = lineCounts st
  /\ braceCount st' = 2 * net_braces (nth s lines EmptyString).
Proof.
  intros Hf Hproc line HoP Hpc HoB Hnet.
  rewrite (net_braces_processed lines s Hproc) in *. fold line in Hnet |- *.
  cbv zeta. unfold scan_line. unfold processed in Hproc.
  rewrite Hproc, Hf. fold line. cbv zeta.
  apply Z.ltb_lt in HoP. apply Z.ltb_lt in HoB. apply Z.eqb_eq in Hpc.
  rewrite HoP, Hpc, HoB. cbn [negb andb inFunction braceCount].
  replace (count_char "{" line - count_char "}" line
           + (count_char "{" line - count_char "}" line) =? 0) with false
    by (symmetry; apply Z.eqb_neq; lia).
  cbn [andb inFunction functionStartLine lineCounts braceCount].
  repeat split. lia.
Qed.

(** X17: a signature with its opening brace on the same line is never
    recorded while the text is balanced. If the scanner, outside a function,
    meets on line [s] a line that opens a parenthesis, leaves the parenthesis
    count at 0 and opens more braces than it closes, then over any number of
    further lines on which the brace depth counted from line [s] stays
    non-negative it records nothing and stays inside the function. *)
Theorem same_line_start_never_recorded lines s st rounds :
  inFunction st = false ->
  processed lines s ->
  let line := trim (nth s lines EmptyString) in
  0 < count_char "(" line ->
  parenCount st + (count_char "(" line - count_char ")" line) = 0 ->
  0 < count_char "{" line ->
  0 < net_braces (nth s lines EmptyString) ->
  (forall k, (s < k <= s + rounds)%nat -> 0 <= brace_depth lines s k) ->
  let st' := scan lines (S rounds) s st in
  inFunction st' = true /\ lineCounts st' = lineCounts st.
Proof.
  intros Hf Hproc line HoP Hpc HoB Hnet Hdepth. cbv zeta.
  destruct (scan_line_same_line_start lines s st Hf Hproc HoP Hpc HoB Hnet)
    as [S1 [S2 [S3 S4]]].
  cbn [scan].
  destruct (scan_inside_rounds lines s (net_braces (nth s lines EmptyString))
              rounds s (scan_line lines s st)) as [G1 [_ [G3 _]]].
  - lia.
  - exact S1.
  - rewrite S4, brace_depth_start. lia.
  - intros k Hk [Hz _]. specialize (Hdepth k Hk). lia.
  - split; [exact G1 | congruence].
Qed.

Lemma same_line_start_never_recorded_witness :
  let lines := ["int f() {"; "  return g(1);"; "}"; "int h() {"; "}"]%string in
  inFunction (scan lines 5 0 initial) = true
  /\ lineCounts (scan lines 5 0 initial) = lineCounts initial.
Proof.
  apply (same_line_start_never_recorded
           ["int f() {"; "  return g(1);"; "}"; "int h() {"; "}"]%string
           0 initial 4).
  - reflexivity.
  - reflexivity.
  - reflexivity.
  - reflexivity.
  - reflexivity.
  - reflexivity.
  - intros k Hk.
    assert (Hc : k = 1%nat \/ k = 2%nat \/ k = 3%nat \/ k = 4%nat) by lia.
    destruct Hc as [->|[->|[->| ->]]]; vm_compute; discriminate.
Defined.

(** The state after a signature whose brace is on the next line. *)
Lemma scan_line_next_line_start lines s st :
  inFunction st = false ->
  processed lines s ->
  let line := trim (nth s lines EmptyString) in
  0 < count_char "(" line ->
  parenCount st + (count_char "(" line - count_char ")" line) = 0 ->
  count_char "{" line = 0 ->
  includes ")" line = true ->
  includes ";" line = false ->
  (s + 1 < length lines)%nat ->
  startsWith "{" (trim (nth (s + 1) lines EmptyString)) = true ->
  let st' := scan_line lines s st in
  inFunction st' = true
  /\ functionStartLine st' = Z.of_nat s
  /\ lineCounts st' = lineCounts st
  /\ braceCount st' = net_braces (nth s lines EmptyString).
Proof.
  intros Hf Hproc line HoP Hpc HoB Hclose Hsemi Hnext Hbrace.
  rewrite (net_braces_processed lines s Hproc). fold line.
  cbv zeta. unfold scan_line. unfold processed in Hproc.
  rewrite Hproc, Hf. fold line. cbv zeta.
  apply Z.ltb_lt in HoP. apply Z.eqb_eq in Hpc. apply Nat.ltb_lt in Hnext.
  rewrite HoP, Hpc, HoB, Hclose, Hsemi, Hnext, Hbrace.
  cbn [negb andb Z.ltb Z.compare inFunction braceCount].
  pose proof (count_char_nonneg "}" line) as Hc.
  destruct ((0 + (0 - count_char "}" line) =? 0)
            && (false || (0 <? count_char "}" line))) eqn:Hcond.
  - exfalso. apply andb_prop in Hcond. destruct Hcond as [H1 H2].
    apply Z.eqb_eq in H1. simpl in H2. apply Z.ltb_lt in H2. lia.
  - cbn [inFunction functionStartLine lineCounts braceCount].
    repeat split; lia.
Qed.

(** X18: a signature whose opening brace is on the next line is recorded
    where the brace depth returns to 0. If the scanner, outside a function,
    meets on line [s] a signature line (an opening and a closing
    parenthesis, the parenthesis count back at 0, no brace opened, no
    semicolon, the next line starting with a brace), and line [j] is the
    first later line with a brace on which the brace depth counted from line
    [s] is 0, then after line [j] the scanner has recorded [j - s + 1] and
    is outside a function again. *)
Theorem next_line_start_recorded lines s j st :
  inFunction st = false ->
  processed lines s ->
  let line := trim (nth s lines EmptyString) in
  0 < count_char "(" line ->
  parenCount st + (count_char "(" line - count_char ")" line) = 0 ->
  count_char "{" line = 0 ->
  includes ")" line = true ->
  includes ";" line = false ->
  (s + 1 < length lines)%nat ->
  startsWith "{" (trim (nth (s + 1) lines EmptyString)) = true ->
  (s < j)%nat ->
  (forall k, (s < k < j)%nat ->
     ~ (brace_depth lines s k = 0 /\ brace_line lines k)) ->
  brace_depth lines s j = 0 ->
  brace_line lines j ->
  let st' := scan lines (j - s + 1) s st in
  inFunction st' = false
  /\ lineCounts st' = lineCounts st ++ [Z.of_nat j - Z.of_nat s + 1].
Proof.
  intros Hf Hproc line HoP Hpc HoB Hclose Hsemi Hnext Hbrace Hj Hopen Hzero
    Hlast.
  cbv zeta.
  destruct (scan_line_next_line_start lines s st Hf Hproc HoP Hpc HoB Hclose
              Hsemi Hnext Hbrace) as [S1 [S2 [S3 S4]]].
  replace (j - s + 1)%nat with (S (j - s - 1) + 1)%nat by lia.
  rewrite scan_app. cbn [scan].
  destruct (scan_inside_rounds lines s 0 (j - s - 1) s
              (scan_line lines s st)) as [G1 [G2 [G3 G4]]].
  - lia.
  - exact S1.
  - rewrite S4, brace_depth_start. lia.
  - intros k Hk [Hz Hb]. apply (Hopen k); [lia|]. split; [lia | exact Hb].
  - set (st1 := scan lines (j - s - 1) (S s) (scan_line lines s st)) in *.
    replace (s + S (j - s - 1))%nat with j by lia.
    destruct Hlast as [Hprocj Hbracej].
    rewrite (scan_line_inside lines j st1 G1 Hprocj). cbv zeta.
    assert (Hcount : braceCount st1
                     + (count_char "{" (trim (nth j lines EmptyString))
                        - count_char "}" (trim (nth j lines EmptyString)))
                     = 0).
    { rewrite G4. destruct (Nat.eq_dec (j - s - 1) 0) as [He|He].
      - replace (s + (j - s - 1))%nat with s by lia.
        assert (j = S s) by lia. subst j.
        rewrite (brace_depth_S lines s s (Nat.le_refl s)) in Hzero.
        rewrite (net_braces_processed lines (S s) Hprocj) in Hzero. lia.
      - replace j with (S (s + (j - s - 1))) in Hzero at 1 by lia.
        rewrite (brace_depth_S lines s (s + (j - s - 1))) in Hzero by lia.
        replace (S (s + (j - s - 1))) with j in Hzero by lia.
        rewrite (net_braces_processed lines j Hprocj) in Hzero. lia. }
    rewrite Hcount. cbn [Z.eqb andb].
    replace ((0 <? count_char "{" (trim (nth j lines EmptyString)))
             || (0 <? count_char "}" (trim (nth j lines EmptyString))))
      with true.
    + cbn [inFunction lineCounts]. split; [reflexivity|].
      rewrite G2, S2, G3, S3.
      replace (1 <? Z.of_nat j - Z.of_nat s + 1) with true
        by (symmetry; apply Z.ltb_lt; lia).
      reflexivity.
    + symmetry. apply orb_true_iff.
      destruct Hbracej as [Hb|Hb]; [left | right]; apply Z.ltb_lt; exact Hb.
Qed.

Lemma next_line_start_recorded_witness :
  let lines := ["int f()"; "{"; "  if (x) {"; "  }"; "}"]%string in
  inFunction (scan lines (4 - 0 + 1) 0 initial) = false
  /\ lineCounts (scan lines (4 - 0 + 1) 0 initial)
     = lineCounts initial ++ [Z.of_nat 4 - Z.of_nat 0 + 1].
Proof.
  apply (next_line_start_recorded
           ["int f()"; "{"; "  if (x) {"; "  }"; "}"]%string 0 4 initial).
  - reflexivity.
  - reflexivity.
  - reflexivity.
  - reflexivity.
  - reflexivity.
  - reflexivity.
  - reflexivity.
  - simpl. lia.
  - reflexivity.
  - lia.
  - intros k Hk [Hz _].
    assert (Hc : k = 1%nat \/ k = 2%nat \/ k = 3%nat) by lia.
    destruct Hc as [->|[->| ->]]; vm_compute in Hz; discriminate.
  - reflexivity.
  - split; [reflexivity|]. right. reflexivity.
Defined.

End BraceDepth.

(** ** The histogram of iteration counts *)
Section Histogram.

Import IterationHistogram.

Lemma map_get_set m k v k' :
  map_get (map_set m k v) k'
  = if (k =? k')%nat then Some v else map_get m k'.
Proof.
  induction m as [|[a w] m IH]; simpl.
  - destruct (k =? k')%nat; reflexivity.
  - destruct (a =? k)%nat eqn:Hak; simpl.
    + apply Nat.eqb_eq in Hak. subst a.
      destruct (k =? k')%nat; reflexivity.
    + destruct (a =? k')%nat eqn:Hak'.
      * apply Nat.eqb_eq in Hak'. subst a.
        rewrite Nat.eqb_sym, Hak. reflexivity.
      * exact IH.
Qed.

Lemma map_set_keys m k v :
  map fst (map_set m k v)
  = if in_dec Nat.eq_dec k (map fst m) then map fst m else map fst m ++ [k].
Proof.
  induction m as [|[a w] m IH]; simpl; [reflexivity|].
  destruct (a =? k)%nat eqn:Hak.
  - apply Nat.eqb_eq in Hak. subst a. simpl.
    destruct (Nat.eq_dec k k); [reflexivity | congruence].
  - apply Nat.eqb_neq in Hak. simpl. rewrite IH.
    destruct (Nat.eq_dec a k); [congruence|].
    destruct (in_dec Nat.eq_dec k (map fst m)); reflexivity.
Qed.

Lemma map_set_totals m k :
  list_sum (map snd (map_set m k (get_or_zero m k + 1)))
  = (list_sum (map snd m) + 1)%nat
  /\ list_sum (map (fun p => fst p * snd p)
                 (map_set m k (get_or_zero m k + 1)))%nat
     = (list_sum (map (fun p => fst p * snd p) m)%nat + k)%nat.
Proof.
  unfold get_or_zero. induction m as [|[a w] m IH]; simpl.
  - split; lia.
  - destruct (a =? k)%nat eqn:Hak; simpl.
    + apply Nat.eqb_eq in Hak. subst a. split; lia.
    + destruct IH as [IH1 IH2]. rewrite IH1, IH2. split; lia.
Qed.

Lemma map_get_In m k v : map_get m k = Some v -> In (k, v) m.
Proof.
  induction m as [|[a w] m IH]; simpl; [discriminate|].
  destruct (a =? k)%nat eqn:Hak.
  - apply Nat.eqb_eq in Hak. subst a. intros H. injection H as ->.
    left. reflexivity.
  - intros H. right. apply IH. exact H.
Qed.

Lemma In_map_get m k v :
  NoDup (map fst m) -> In (k, v) m -> map_get m k = Some v.
Proof.
  induction m as [|[a w] m IH]; simpl; intros Hnd Hin; [contradiction|].
  inversion Hnd as [|a' l' Hnotin Hnd']; subst.
  destruct Hin as [Heq|Hin].
  - injection Heq as -> ->. rewrite Nat.eqb_refl. reflexivity.
  - destruct (a =? k)%nat eqn:Hak.
    + apply Nat.eqb_eq in Hak. subst a. exfalso. apply Hnotin.
      apply (in_map fst) in Hin. exact Hin.
    + apply IH; assumption.
Qed.

Lemma In_map_set_other m x v a w :
  a <> x -> In (a, w) (map_set m x v) -> In (a, w) m.
Proof.
  intros Hne. induction m as [|[b u] m IH]; simpl; intros Hin.
  - destruct Hin as [H|[]]. injection H as <- _. congruence.
  - destruct (b =? x)%nat eqn:Hb.
    + apply Nat.eqb_eq in Hb. subst b.
      destruct Hin as [H|Hin]; [injection H as <- _; congruence|].
      right. exact Hin.
    + destruct Hin as [H|Hin]; [left; exact H | right; apply IH; exact Hin].
Qed.

(** What the [forEach] has built after the whole array. *)
Lemma tally_spec results :
  let (m, s) := tally results in
  (forall k, get_or_zero m k = count_occ Nat.eq_dec results k)
  /\ NoDup (map fst m)
  /\ Forall (fun p => (0 < snd p)%nat) m
  /\ s = INR (list_sum results)
  /\ list_sum (map snd m) = length results
  /\ list_sum (map (fun p => fst p * snd p)%nat m) = list_sum results.
Proof.
  unfold tally. induction results as [|x results IH] using rev_ind.
  - simpl. repeat split; try reflexivity; constructor.
  - rewrite fold_left_app. cbn [fold_left].
    match goal with
    | |- context [fold_left ?f results ?a] =>
        destruct (fold_left f results a) as [m s]
    end.
    destruct IH as [I1 [I2 [I3 [I4 [I5 I6]]]]].
    destruct (map_set_totals m x) as [T1 T2].
    split; [|split; [|split; [|split; [|split]]]].
    + intros k. unfold get_or_zero at 1. rewrite map_get_set.
      rewrite count_occ_app. simpl.
      destruct (Nat.eq_dec x k) as [->|Hne].
      * rewrite Nat.eqb_refl, I1. reflexivity.
      * apply Nat.eqb_neq in Hne. rewrite Hne.
        fold (get_or_zero m k). rewrite I1. lia.
    + rewrite map_set_keys.
      destruct (in_dec Nat.eq_dec x (map fst m)) as [Hin|Hnotin];
        [exact I2|].
      apply NoDup_app; [exact I2 | constructor; [intros [] | constructor] |].
      intros a Ha [<-|[]]. exact (Hnotin Ha).
    + apply Forall_forall. intros [a w] Hin. simpl.
      rewrite Forall_forall in I3.
      destruct (Nat.eq_dec a x) as [->|Hne].
      * assert (Hget : map_get (map_set m x (get_or_zero m x + 1)) x
                       = Some w).
        { apply In_map_get; [|exact Hin]. rewrite map_set_keys.
          destruct (in_dec Nat.eq_dec x (map fst m)) as [_|Hnotin];
            [exact I2|].
          apply NoDup_app;
            [exact I2 | constructor; [intros [] | constructor] |].
          intros b Hb [<-|[]]. exact (Hnotin Hb). }
        rewrite map_get_set, Nat.eqb_refl in Hget. injection Hget as <-. lia.
      * apply (I3 (a, w) (In_map_set_other m x _ a w Hne Hin)).
    + rewrite I4, list_sum_app. simpl. rewrite Nat.add_0_r, plus_INR. lra.
    + rewrite T1, I5, length_app. simpl. lia.
    + rewrite T2, I6, list_sum_app. simpl. lia.
Qed.

Lemma insert_by_key_perm p l : Permutation (insert_by_key p l) (p :: l).
Proof.
  induction l as [|q l IH]; simpl; [apply Permutation_refl|].
  destruct (fst p <=? fst q)%nat; [apply Permutation_refl|].
  apply Permutation_trans with (q :: p :: l);
    [apply perm_skip; exact IH | apply perm_swap].
Qed.

Lemma sort_by_key_perm l : Permutation (sort_by_key l) l.
Proof.
  induction l as [|p l IH]; simpl; [apply Permutation_refl|].
  apply Permutation_trans with (p :: sort_by_key l);
    [apply insert_by_key_perm | apply perm_skip; exact IH].
Qed.

Lemma insert_by_key_sorted p l :
  StronglySorted (fun a b => (fst a <= fst b)%nat) l ->
  StronglySorted (fun a b => (fst a <= fst b)%nat) (insert_by_key p l).
Proof.
  induction l as [|q l IH]; intros Hs; simpl.
  - constructor; constructor.
  - inversion Hs as [|q' l' Hsl Hall]; subst.
    destruct (fst p <=? fst q)%nat eqn:Hle.
    + apply Nat.leb_le in Hle. constructor; [exact Hs|].
      constructor; [exact Hle|].
      rewrite Forall_forall in *. intros y Hy. specialize (Hall y Hy). lia.
    + apply Nat.leb_gt in Hle. constructor; [apply IH; exact Hsl|].
      rewrite Forall_forall in *. intros y Hy.
      apply (Permutation_in y (insert_by_key_perm p l)) in Hy.
      destruct Hy as [<-|Hy]; [lia | apply Hall; exact Hy].
Qed.

Lemma sort_by_key_sorted l :
  StronglySorted (fun a b => (fst a <= fst b)%nat) (sort_by_key l).
Proof.
  induction l as [|p l IH]; simpl; [constructor|].
  apply insert_by_key_sorted. exact IH.
Qed.

Lemma sorted_keys_strict (l : list (nat * nat)) :
  StronglySorted (fun a b => (fst a <= fst b)%nat) l ->
  NoDup (map fst l) ->
  StronglySorted lt (map fst l).
Proof.
  induction 1 as [|p l Hs IH Hall]; intros Hnd; simpl; [constructor|].
  simpl in Hnd. inversion Hnd as [|a l' Hnotin Hnd']; subst.
  constructor; [apply IH; exact Hnd'|].
  apply Forall_forall. intros k Hk.
  apply in_map_iff in Hk. destruct Hk as [q [<- Hq]].
  rewrite Forall_forall in Hall. specialize (Hall q Hq).
  assert (fst p <> fst q).
  { intros Heq. apply Hnotin. rewrite Heq. apply in_map. exact Hq. }
  lia.
Qed.

Lemma list_sum_perm (l l' : list nat) :
  Permutation l l' -> list_sum l = list_sum l'.
Proof.
  induction 1; simpl; lia.
Qed.

Lemma count_occ_le_length (l : list nat) k :
  (count_occ Nat.eq_dec l k <= length l)%nat.
Proof.
  induction l as [|x l IH]; simpl; [lia|].
  destruct (Nat.eq_dec x k); lia.
Qed.

(** The rows that [printHistogram] prints, without their bars. *)
Lemma printHistogram_rows results :
  map fst (snd (printHistogram results))
  = sort_by_key (fst (tally results)).
Proof.
  unfold printHistogram. destruct (tally results) as [m s]. simpl.
  rewrite map_map. rewrite <- (map_id (sort_by_key m)) at 2.
  apply map_ext. intros [k c]. reflexivity.
Qed.

(** X19: [printHistogram] prints a row for an iteration count exactly when
    the count occurs among the results, with the number of its occurrences
    as frequency. *)
Theorem printHistogram_row_frequencies results k c :
  In (k, c) (map fst (snd (printHistogram results))) <->
  c = count_occ Nat.eq_dec results k /\ (0 < c)%nat.
Proof.
  rewrite printHistogram_rows.
  pose proof (tally_spec results) as Hspec.
  destruct (tally results) as [m s]. simpl.
  destruct Hspec as [I1 [I2 [I3 _]]].
  split.
  - intros Hin. apply (Permutation_in _ (sort_by_key_perm m)) in Hin.
    rewrite Forall_forall in I3. split; [|apply (I3 (k, c) Hin)].
    rewrite <- I1. unfold get_or_zero.
    rewrite (In_map_get m k c I2 Hin). reflexivity.
  - intros [Hc Hpos].
    apply (Permutation_in _ (Permutation_sym (sort_by_key_perm m))).
    apply map_get_In. specialize (I1 k). unfold get_or_zero in I1.
    destruct (map_get m k) as [v|]; [congruence | lia].
Qed.

(** X20: the rows of [printHistogram] are in strictly ascending order of
    iteration count: no count has two rows. *)
Theorem printHistogram_rows_ascending results :
  StronglySorted lt (map fst (map fst (snd (printHistogram results)))).
Proof.
  rewrite printHistogram_rows.
  pose proof (tally_spec results) as Hspec.
  destruct (tally results) as [m s]. simpl.
  destruct Hspec as [_ [I2 _]].
  apply sorted_keys_strict; [apply sort_by_key_sorted|].
  apply (Permutation_NoDup
           (Permutation_map fst (Permutation_sym (sort_by_key_perm m)))).
  exact I2.
Qed.

(** X21: the frequencies of the rows add up to the number of results, the
    counts weighted by their frequencies add up to the sum of the results,
    and on a non-empty array the average printed is that sum divided by the
    number of results. *)
Theorem printHistogram_totals results :
  list_sum (map snd (map fst (snd (printHistogram results))))
  = length results
  /\ list_sum (map (fun p => fst p * snd p)%nat
                 (map fst (snd (printHistogram results))))
     = list_sum results
  /\ (results <> [] ->
      fst (printHistogram results)
      = INR (list_sum results) / INR (length results)).
Proof.
  rewrite printHistogram_rows.
  assert (Havg : fst (printHistogram results)
                 = snd (tally results) / INR (length results)).
  { unfold printHistogram. destruct (tally results). reflexivity. }
  rewrite Havg.
  pose proof (tally_spec results) as Hspec.
  destruct (tally results) as [m s]. simpl.
  destruct Hspec as [_ [_ [_ [I4 [I5 I6]]]]].
  pose proof (sort_by_key_perm m) as Hp.
  split; [|split].
  - rewrite (list_sum_perm _ _ (Permutation_map snd Hp)). exact I5.
  - rewrite (list_sum_perm _ _
               (Permutation_map (fun p => fst p * snd p)%nat Hp)).
    exact I6.
  - intros _. rewrite I4. reflexivity.
Qed.

Lemma printHistogram_totals_witness :
  fst (printHistogram [1; 2; 1]%nat)
  = INR (list_sum [1; 2; 1]%nat) / INR (length [1; 2; 1]%nat).
Proof.
  apply (printHistogram_totals [1; 2; 1]%nat). discriminate.
Defined.

(** The bar of a frequency that is positive and at most the number of
    results has between 1 and 50 characters. *)
Lemma bar_length_range c n :
  (0 < c <= n)%nat -> (1 <= bar_length c n <= 50)%Z.
Proof.
  intros [Hc Hn]. unfold bar_length. split; [lia|].
  apply Z.max_lub; [lia|].
  apply le_IZR. unfold Math_floor.
  destruct (base_Int_part (INR c / Rmax 1 (INR n / 50))) as [H1 _].
  apply Rle_trans with (INR c / Rmax 1 (INR n / 50)); [exact H1|].
  assert (HnR : 0 < INR n) by (apply lt_0_INR; lia).
  assert (HcR : INR c <= INR n) by (apply le_INR; exact Hn).
  assert (HM1 : 1 <= Rmax 1 (INR n / 50)) by apply Rmax_l.
  assert (HM2 : INR n / 50 <= Rmax 1 (INR n / 50)) by apply Rmax_r.
  apply (Rmult_le_reg_r (Rmax 1 (INR n / 50))); [lra|].
  unfold Rdiv at 1. rewrite Rmult_assoc, Rinv_l by lra. lra.
Qed.

(** X22: every bar that [printHistogram] prints has between 1 and 50
    characters. *)
Theorem printHistogram_bars_bounded results :
  Forall (fun row : nat * nat * Z => (1 <= snd row <= 50)%Z)
    (snd (printHistogram results)).
Proof.
  apply Forall_forall. intros [[k c] bar] Hin.
  assert (Hrow : In (k, c) (map fst (snd (printHistogram results)))).
  { apply (in_map fst) in Hin. exact Hin. }
  assert (Hbar : bar = bar_length c (length results)).
  { unfold printHistogram in Hin. destruct (tally results) as [m s].
    simpl in Hin. apply in_map_iff in Hin.
    destruct Hin as [[k' c'] [Heq _]]. injection Heq as -> -> <-.
    reflexivity. }
  rewrite printHistogram_rows in Hrow.
  pose proof (tally_spec results) as Hspec.
  destruct (tally results) as [m s]. simpl in Hrow.
  destruct Hspec as [I1 [I2 [I3 _]]].
  apply (Permutation_in _ (sort_by_key_perm m)) in Hrow.
  rewrite Forall_forall in I3. pose proof (I3 (k, c) Hrow) as Hpos.
  assert (Hc : c = count_occ Nat.eq_dec results k).
  { rewrite <- I1. unfold get_or_zero.
    rewrite (In_map_get m k c I2 Hrow). reflexivity. }
  simpl. rewrite Hbar. apply bar_length_range. simpl in Hpos.
  pose proof (count_occ_le_length results k). lia.
Qed.

End Histogram.

(** ** More on the tree-sitter counter and on the sampler *)
Section CountersMore.

Import TreeSitter Attachment.

Lemma counts_of_children ch :
  map node_lines (filter multi_line_function (flat_map preorder ch))
  = flat_map TreeSitter.countFunctionLines ch.
Proof.
  induction ch as [|c ch IH]; [reflexivity|].
  cbn [flat_map]. rewrite filter_app, map_app, IH. f_equal.
  unfold TreeSitter.countFunctionLines. rewrite traverseNode_preorder.
  reflexivity.
Qed.

(** X23: the counts of a tree are the count of its root, when the root is a
    function node of more than one line, followed by the counts of its
    children's trees from left to right; and [traverseNode] only appends
    them to the counts collected before. *)
Theorem countFunctionLines_of_children t s e ch :
  TreeSitter.countFunctionLines (Node t s e ch)
  = (if is_function t && (1 <? row e - row s + 1)%Z
     then [(row e - row s + 1)%Z] else [])
    ++ flat_map TreeSitter.countFunctionLines ch
  /\ forall n lineCounts,
       traverseNode n lineCounts
       = lineCounts ++ TreeSitter.countFunctionLines n.
Proof.
  split.
  - unfold TreeSitter.countFunctionLines at 1.
    rewrite traverseNode_preorder. cbn [app preorder filter].
    assert (Hm : multi_line_function (Node t s e ch)
                 = is_function t && (1 <? row e - row s + 1)%Z)
      by reflexivity.
    rewrite Hm.
    destruct (is_function t && (1 <? row e - row s + 1)%Z); cbn [map app];
      rewrite counts_of_children; reflexivity.
  - intros n lineCounts. unfold TreeSitter.countFunctionLines.
    rewrite (traverseNode_preorder n lineCounts),
      (traverseNode_preorder n []).
    reflexivity.
Qed.

(** X24: once the counts have a positive sum, an entry that is 0 is never
    selected by a positive draw. *)
Theorem samplePreferentialAttachment_skips_zero counts u j :
  (forall c, In c counts -> 0 <= c) ->
  0 < sum counts ->
  0 < u < 1 ->
  nth j counts 0 = 0 ->
  samplePreferentialAttachment counts u <> Z.of_nat j.
Proof.
  intros Hpos HS Hu Hzero Hsel.
  destruct (samplePreferentialAttachment_crossing counts u Hpos HS)
    as [j' [H1 [_ [H3 H4]]]]; [lra|].
  rewrite H1 in Hsel. apply Nat2Z.inj in Hsel. subst j'.
  rewrite Nat.add_1_r, cumulative_S, Hzero in H3.
  destruct j as [|j].
  - rewrite cumulative_0 in H3. nra.
  - specialize (H4 j (Nat.lt_succ_diag_r j)). rewrite Nat.add_1_r in H4. lra.
Qed.

Lemma samplePreferentialAttachment_skips_zero_witness :
  samplePreferentialAttachment [0; 5] (1 / 2) <> Z.of_nat 0.
Proof.
  apply (samplePreferentialAttachment_skips_zero [0; 5] (1 / 2) 0).
  - intros c Hc. simpl in Hc. lra.
  - unfold sum. simpl. lra.
  - lra.
  - reflexivity.
Defined.

End CountersMore.

(** ** The Gini coefficient on counts, and in binary64 *)
Section GiniCounts.

Import Attachment.




End GiniCounts.

(** ** The rounds in which the brace-matching counter records *)
Section Recording.

Import BraceScanner.
Local Open Scope Z_scope.

Lemma scan_state_S lines k :
  scan_state lines (S k) = scan_line lines k (scan_state lines k).
Proof.
  unfold scan_state. replace (S k) with (k + 1)%nat by lia.
  rewrite scan_app. reflexivity.
Qed.

(** A round that starts outside a function records nothing; if it ends
    inside a function, the function starts on the line of the round, which
    is a start line. *)
Lemma scan_line_outside lines i st :
  inFunction st = false ->
  lineCounts (scan_line lines i st) = lineCounts st
  /\ (inFunction (scan_line lines i st) = true ->
      functionStartLine (scan_line lines i st) = Z.of_nat i
      /\ start_line lines i).
Proof.
  intros Hf. unfold scan_line.
  set (line := trim (nth i lines EmptyString)).
  destruct (skipped line) eqn:Hskip.
  { split; [reflexivity|]. rewrite Hf. discriminate. }
  cbv zeta. rewrite Hf.
  set (oP := count_char "(" line). set (cP := count_char ")" line).
  set (oB := count_char "{" line). set (cB := count_char "}" line).
  assert (Hproc : processed lines i) by exact Hskip.
  assert (Hclose : forall bc pc,
            start_line lines i ->
            let st1 := mkState true (Z.of_nat i) bc pc (lineCounts st) in
            let st2 :=
              if inFunction st1 then
                if ((braceCount st1 + (oB - cB) =? 0)
                    && ((0 <? oB) || (0 <? cB)))
                then
                  mkState false (functionStartLine st1)
                    (braceCount st1 + (oB - cB)) 0
                    (if 1 <? Z.of_nat i - functionStartLine st1 + 1
                     then lineCounts st1
                          ++ [Z.of_nat i - functionStartLine st1 + 1]
                     else lineCounts st1)
                else
                  mkState true (functionStartLine st1)
                    (braceCount st1 + (oB - cB)) (parenCount st1)
                    (lineCounts st1)
              else st1 in
            lineCounts st2 = lineCounts st
            /\ (inFunction st2 = true ->
                functionStartLine st2 = Z.of_nat i /\ start_line lines i)).
  { intros bc pc Hstart. cbv zeta.
    cbn [inFunction functionStartLine braceCount parenCount lineCounts].
    destruct ((bc + (oB - cB) =? 0) && ((0 <? oB) || (0 <? cB))).
    - cbn [inFunction lineCounts].
      replace (1 <? Z.of_nat i - Z.of_nat i + 1) with false
        by (symmetry; apply Z.ltb_ge; lia).
      split; [reflexivity | discriminate].
    - cbn [inFunction lineCounts functionStartLine].
      split; [reflexivity|]. intros _. split; [reflexivity | exact Hstart]. }
  cbn [negb andb].
  destruct ((0 <? oP) && (parenCount st + (oP - cP) =? 0) && (0 <? oB))
    eqn:Hc1.
  - apply Hclose.
    apply andb_prop in Hc1. destruct Hc1 as [Hc1 HoB].
    apply andb_prop in Hc1. destruct Hc1 as [HoP _].
    apply Z.ltb_lt in HoB. apply Z.ltb_lt in HoP.
    split; [exact Hproc|]. fold line. fold oP oB.
    split; [exact HoP | left; exact HoB].
  - destruct ((0 <? oP) && (parenCount st + (oP - cP) =? 0)
              && includes ")" line && negb (includes ";" line)) eqn:Hc2.
    + destruct ((i + 1 <? length lines)%nat
                && startsWith "{" (trim (nth (i + 1) lines EmptyString)))
        eqn:Hc3.
      * apply Hclose.
        apply andb_prop in Hc2. destruct Hc2 as [Hc2 Hsemi].
        apply andb_prop in Hc2. destruct Hc2 as [Hc2 Hparen].
        apply andb_prop in Hc2. destruct Hc2 as [HoP _].
        apply andb_prop in Hc3. destruct Hc3 as [Hnext Hbrace].
        apply Z.ltb_lt in HoP. apply Nat.ltb_lt in Hnext.
        apply negb_true_iff in Hsemi.
        split; [exact Hproc|]. fold line. fold oP oB.
        split; [exact HoP|]. right. repeat split; assumption.
      * cbn [inFunction lineCounts]. split; [reflexivity | discriminate].
    + cbn [inFunction lineCounts]. split; [reflexivity | discriminate].
Qed.

(** A round that starts inside a function either stays inside it and
    records nothing, or brings the counter to 0 on a line with a brace,
    leaves the function and records the lines from its start line to the
    line of the round when they are more than one. *)
Lemma scan_line_inside_cases lines i st :
  inFunction st = true ->
  (inFunction (scan_line lines i st) = true
   /\ functionStartLine (scan_line lines i st) = functionStartLine st
   /\ lineCounts (scan_line lines i st) = lineCounts st)
  \/ (inFunction (scan_line lines i st) = false
      /\ braceCount (scan_line lines i st) = 0
      /\ brace_line lines i
      /\ lineCounts (scan_line lines i st)
         = if 1 <? Z.of_nat i - functionStartLine st + 1
           then lineCounts st ++ [Z.of_nat i - functionStartLine st + 1]
           else lineCounts st).
Proof.
  intros Hf.
  destruct (skipped (trim (nth i lines EmptyString))) eqn:Hskip.
  - left. unfold scan_line. rewrite Hskip. repeat split. exact Hf.
  - assert (Hproc : processed lines i) by exact Hskip.
    rewrite (scan_line_inside lines i st Hf Hproc). cbv zeta.
    set (oB := count_char "{" (trim (nth i lines EmptyString))).
    set (cB := count_char "}" (trim (nth i lines EmptyString))).
    destruct ((braceCount st + (oB - cB) =? 0) && ((0 <? oB) || (0 <? cB)))
      eqn:Hc.
    + right. apply andb_prop in Hc. destruct Hc as [Hz Hb].
      apply Z.eqb_eq in Hz. apply orb_prop in Hb.
      cbn [inFunction braceCount lineCounts].
      split; [reflexivity|]. split; [exact Hz|]. split; [|reflexivity].
      split; [exact Hproc|]. fold oB cB.
      destruct Hb as [Hb|Hb]; apply Z.ltb_lt in Hb; [left | right]; exact Hb.
    + left. cbn [inFunction functionStartLine lineCounts]. repeat split.
Qed.

(** While the scanner is inside a function it has been inside it, with the
    same start line, since the round after that of its start line. *)
Lemma open_since_start lines :
  forall i,
    inFunction (scan_state lines i) = true ->
    exists s,
      (s < i)%nat
      /\ functionStartLine (scan_state lines i) = Z.of_nat s
      /\ inFunction (scan_state lines s) = false
      /\ start_line lines s
      /\ (forall k, (s < k <= i)%nat ->
            inFunction (scan_state lines k) = true
            /\ functionStartLine (scan_state lines k) = Z.of_nat s).
Proof.
  induction i as [|i IH]; intros Hin.
  - discriminate.
  - rewrite scan_state_S in Hin.
    destruct (inFunction (scan_state lines i)) eqn:Hf.
    + destruct (scan_line_inside_cases lines i (scan_state lines i) Hf)
        as [[H1 [H2 _]]|[H1 _]]; [|congruence].
      destruct (IH eq_refl) as [s [Hs [Hstart [Hout [Hsl Hall]]]]].
      exists s. split; [lia|]. rewrite scan_state_S.
      split; [congruence|]. split; [exact Hout|]. split; [exact Hsl|].
      intros k Hk. destruct (Nat.eq_dec k (S i)) as [->|Hne].
      * rewrite scan_state_S. split; [exact H1 | congruence].
      * apply Hall. lia.
    + destruct (scan_line_outside lines i (scan_state lines i) Hf)
        as [_ Hstart].
      destruct (Hstart Hin) as [H1 H2].
      exists i. split; [lia|]. rewrite scan_state_S.
      split; [exact H1|]. split; [exact Hf|]. split; [exact H2|].
      intros k Hk. assert (k = S i) by lia. subst k.
      rewrite scan_state_S. split; assumption.
Qed.

(** What a round does to the recorded counts. *)
Lemma round_outcome lines i :
  lineCounts (scan_state lines (S i)) = lineCounts (scan_state lines i)
  \/ exists s, records lines s i.
Proof.
  destruct (inFunction (scan_state lines i)) eqn:Hf.
  - destruct (scan_line_inside_cases lines i (scan_state lines i) Hf)
      as [[_ [_ H3]]|[H1 [H2 [H3 H4]]]].
    + left. rewrite scan_state_S. exact H3.
    + right.
      destruct (open_since_start lines i Hf)
        as [s [Hs [Hstart [Hout [Hsl Hall]]]]].
      exists s. unfold records. rewrite scan_state_S.
      split; [exact Hs|]. split; [exact Hout|]. split; [exact Hsl|].
      split; [exact Hall|]. split; [exact H3|]. split; [exact H1|].
      split; [exact H2|].
      rewrite H4, Hstart.
      replace (1 <? Z.of_nat i - Z.of_nat s + 1) with true
        by (symmetry; apply Z.ltb_lt; lia).
      reflexivity.
  - left. rewrite scan_state_S.
    apply (scan_line_outside lines i (scan_state lines i) Hf).
Qed.

Lemma recorded_counts lines :
  forall n,
    (n <= length lines)%nat ->
    Forall (fun c => 1 < c
                     /\ exists s i, (i < length lines)%nat
                                    /\ records lines s i
                                    /\ c = Z.of_nat i - Z.of_nat s + 1)
      (lineCounts (scan_state lines n)).
Proof.
  induction n as [|n IH]; intros Hn.
  - constructor.
  - destruct (round_outcome lines n) as [Hsame|[s Hrec]].
    + rewrite Hsame. apply IH. lia.
    + pose proof Hrec as [Hs [_ [_ [_ [_ [_ [_ Happ]]]]]]].
      rewrite Happ. apply Forall_app. split; [apply IH; lia|].
      constructor; [|constructor]. split; [lia|].
      exists s, n. split; [lia|]. split; [exact Hrec | reflexivity].
Qed.

(** The round of a line records for one start line only: the
    [functionStartLine] the scanner holds before that round. *)
Lemma records_start_unique lines s s' i :
  records lines s i -> records lines s' i -> s = s'.
Proof.
  intros [Hs [_ [_ [Hall _]]]] [Hs' [_ [_ [Hall' _]]]].
  destruct (Hall i) as [_ H1]; [lia|].
  destruct (Hall' i) as [_ H2]; [lia|].
  rewrite H1 in H2. apply Nat2Z.inj in H2. exact H2.
Qed.

(** C7: the tree-sitter counter records, in visiting order, [endLine -
    startLine + 1] for exactly the function nodes where this exceeds 1. In
    the brace-matching counter every round either leaves the counts as they
    are or appends one count, the index [i] of its line minus the
    [functionStartLine] [s] detected earlier and held since, plus 1, on a
    line with a brace that closes the function, and that start line is the
    only one the round can record for; every count of the result was
    appended so and exceeds 1; and a round that starts outside a function,
    where a function would start and end on one line, appends nothing. *)
Theorem function_line_counts_inclusive :
  (forall rootNode,
     TreeSitter.countFunctionLines rootNode
     = map node_lines (filter multi_line_function (preorder rootNode)))
  /\ (forall content i,
        lineCounts (scan_state (split_lines content) (S i))
        = lineCounts (scan_state (split_lines content) i)
        \/ exists s, records (split_lines content) s i)
  /\ (forall content,
        Forall (fun c => 1 < c
                         /\ exists s i,
                              (i < length (split_lines content))%nat
                              /\ records (split_lines content) s i
                              /\ c = Z.of_nat i - Z.of_nat s + 1)
          (BraceScanner.countFunctionLines content))
  /\ (forall content i,
        inFunction (scan_state (split_lines content) i) = false ->
        lineCounts (scan_state (split_lines content) (S i))
        = lineCounts (scan_state (split_lines content) i))
  /\ (forall content s s' i,
        records (split_lines content) s i ->
        records (split_lines content) s' i -> s = s').
Proof.
  split; [|split; [|split; [|split]]].
  - intros rootNode. unfold TreeSitter.countFunctionLines.
    rewrite traverseNode_preorder. reflexivity.
  - intros content i. apply round_outcome.
  - intros content. unfold BraceScanner.countFunctionLines. cbv zeta.
    apply (recorded_counts (split_lines content)
             (length (split_lines content))).
    lia.
  - intros content i Hf. rewrite scan_state_S.
    apply (scan_line_outside _ i _ Hf).
  - intros content s s' i. apply records_start_unique.
Qed.

End Recording.
